(** * csutilities: miscellaneous utilities of the code signing implementation

    A shallow embedding of [lib/csutilities.cpp] (namespace
    [Security::CodeSigning]) and the properties of its four utilities:
    the certificate hash, the file range hasher, the certificate field
    probe and the [Copyfile] wrapper.

    The utilities are leaves over host facilities that live outside this
    source file: the SHA-1 hasher object, [UnixPlusPlus::FileDesc], the
    [SecCertificate*] calls of the certificate library and the
    [copyfile_state_*] calls of the file-copy facility.  Each facility is
    an interface here (a class or a record of operations); the utilities
    are written once against the interface, and reference instances are
    given at the end of the definitions for concrete runs. *)

From Stdlib Require Import ZArith Lia.
From Stdlib.Strings Require Import Byte.
From stdpp Require Import base list gmap.

#[local] Open Scope Z_scope.

(** ** Bytes, status codes and outcomes *)

#[global] Instance byte_eq_dec : EqDecision byte := Byte.byte_eq_dec.

Definition byte_of_Z (z : Z) : byte :=
  match Byte.of_N (Z.to_N (z mod 256)) with
  | Some b => b
  | None => x00
  end.

Definition Z_of_byte (b : byte) : Z := Z.of_N (Byte.to_N b).

(** [OSStatus] and the CSSM return codes are 32-bit signed integers. *)
Definition OSStatus := Z.
Definition noErr : OSStatus := 0.

(** What a C++ call can do besides returning: throw one of the two
    exception classes used in this file, or trip an [assert]. *)
Inductive Exception : Type :=
| MacOSError (rc : OSStatus)
| UnixError (errno : Z).

Inductive Outcome (A : Type) : Type :=
| Return (a : A)
| Throw (e : Exception)
| AssertionFailed.
Arguments Return {A} a.
Arguments Throw {A} e.
Arguments AssertionFailed {A}.

#[global] Instance Exception_eq_dec : EqDecision Exception.
Proof. solve_decision. Defined.

#[global] Instance Outcome_eq_dec `{EqDecision A} : EqDecision (Outcome A).
Proof. solve_decision. Defined.

(** ** The host hash primitive: SHA-1 (FIPS 180)

    [SHA1] objects absorb byte ranges and are finished into a 20 byte
    digest.  The digest function itself is the standard one. *)

Module FIPS180.

Definition w32 (x : Z) : Z := x mod 2 ^ 32.

Definition rotl (n x : Z) : Z :=
  w32 (Z.lor (Z.shiftl x n) (Z.shiftr x (32 - n))).

Definition f (t : nat) (b c d : Z) : Z :=
  if (t <? 20)%nat then Z.lor (Z.land b c) (Z.land (w32 (Z.lnot b)) d)
  else if (t <? 40)%nat then Z.lxor (Z.lxor b c) d
  else if (t <? 60)%nat then
    Z.lor (Z.lor (Z.land b c) (Z.land b d)) (Z.land c d)
  else Z.lxor (Z.lxor b c) d.

Definition K (t : nat) : Z :=
  if (t <? 20)%nat then 0x5A827999
  else if (t <? 40)%nat then 0x6ED9EBA1
  else if (t <? 60)%nat then 0x8F1BBCDC
  else 0xCA62C1D6.

(** big-endian packing *)
Definition be_word (bs : list Z) : Z :=
  fold_left (fun acc b => acc * 256 + b) bs 0.

Definition be_bytes (n : nat) (x : Z) : list Z :=
  map (fun i => (x / 256 ^ Z.of_nat (n - 1 - i)) mod 256) (seq 0 n).

Definition pad (msg : list Z) : list Z :=
  let len := Z.of_nat (length msg) in
  msg ++ [0x80] ++ repeat 0 (Z.to_nat ((55 - len) mod 64))
      ++ be_bytes 8 (8 * len).

Definition blocks (l : list Z) : list (list Z) :=
  map (fun i => take 64 (drop (64 * i) l)) (seq 0 (length l / 64)).

Definition words (block : list Z) : list Z :=
  map (fun i => be_word (take 4 (drop (4 * i) block))) (seq 0 16).

(** the message schedule, most recent word first *)
Fixpoint schedule (n : nat) (rev_ws : list Z) : list Z :=
  match n with
  | O => rev_ws
  | S n' =>
      let w := rotl 1 (Z.lxor (Z.lxor (nth 2 rev_ws 0) (nth 7 rev_ws 0))
                              (Z.lxor (nth 13 rev_ws 0) (nth 15 rev_ws 0))) in
      schedule n' (w :: rev_ws)
  end.

Definition state : Type := Z * Z * Z * Z * Z.

Definition round (s : state) (tw : nat * Z) : state :=
  let '(a, b, c, d, e) := s in
  let '(t, w) := tw in
  (w32 (rotl 5 a + f t b c d + e + K t + w), a, rotl 30 b, c, d).

Definition compress (h : state) (block : list Z) : state :=
  let ws := rev (schedule 64 (rev (words block))) in
  let '(a, b, c, d, e) := fold_left round (combine (seq 0 80) ws) h in
  let '(h0, h1, h2, h3, h4) := h in
  (w32 (h0 + a), w32 (h1 + b), w32 (h2 + c), w32 (h3 + d), w32 (h4 + e)).

Definition initial : state :=
  (0x67452301, 0xEFCDAB89, 0x98BADCFE, 0x10325476, 0xC3D2E1F0).

Definition sha1 (msg : list byte) : list byte :=
  let '(h0, h1, h2, h3, h4) :=
    fold_left compress (blocks (pad (map Z_of_byte msg))) initial in
  map byte_of_Z
    (be_bytes 4 h0 ++ be_bytes 4 h1 ++ be_bytes 4 h2
       ++ be_bytes 4 h3 ++ be_bytes 4 h4).

End FIPS180.

(** The [SHA1] hasher object, seen through its interface: the state is
    the sequence of byte ranges it was given, one entry per
    [hasher(data, length)] call; [finish] digests their concatenation. *)
Definition Digest := list byte.

Record SHA1 : Type := { appended : list (list byte) }.

#[global] Instance SHA1_eq_dec : EqDecision SHA1.
Proof. solve_decision. Defined.

Definition SHA1_new : SHA1 := {| appended := [] |}.

Definition SHA1_update (hasher : SHA1) (data : list byte) : SHA1 :=
  {| appended := appended hasher ++ [data] |}.

Definition SHA1_absorbed (hasher : SHA1) : list byte :=
  concat (appended hasher).

Definition SHA1_finish (hasher : SHA1) : Digest :=
  FIPS180.sha1 (SHA1_absorbed hasher).

(** ** The host certificate library

    Certificates are opaque references owned by the library; everything
    the utilities learn about one comes from these calls.  The two
    constants are the library's as well. *)

Definition SecCertificateRef := Z.
Definition NULL : SecCertificateRef := 0.

Definition CSSM_DATA := list byte.

(** A [CssmOid] is a [CSSM_DATA]; its [==] compares length and bytes. *)
Definition CssmOid := list byte.

(** The part of [CSSM_X509_EXTENSION] a field value of the extension
    C-struct field points to. *)
Record CSSM_X509_EXTENSION : Type := {
  extnId : CssmOid;
  critical : bool;
  BERvalue : CSSM_DATA;
}.

#[global] Instance CSSM_X509_EXTENSION_eq_dec : EqDecision CSSM_X509_EXTENSION.
Proof. solve_decision. Defined.

(** [CSSM_DATA *value]: a borrowed field value, possibly null. *)
Definition FieldValue := option CSSM_DATA.

(** [CSSM_DATA **values]: null, or a null-terminated array of pointers
    to field values; each [Data] of the extension C-struct field is a
    [CSSM_X509_EXTENSION]. *)
Definition FieldValues := option (list CSSM_X509_EXTENSION).

Record CertLibrary : Type := {
  CSSMERR_CL_UNKNOWN_TAG : OSStatus;
  (* the two labels [noErr] and [CSSMERR_CL_UNKNOWN_TAG] of one switch *)
  CSSMERR_CL_UNKNOWN_TAG_distinct : CSSMERR_CL_UNKNOWN_TAG ≠ noErr;
  CSSMOID_X509V3CertificateExtensionCStruct : CssmOid;
  SecCertificateGetData : SecCertificateRef → OSStatus * CSSM_DATA;
  SecCertificateCopyFirstFieldValue :
    SecCertificateRef → CssmOid → OSStatus * FieldValue;
  SecCertificateReleaseFirstFieldValue :
    SecCertificateRef → CssmOid → FieldValue → OSStatus;
  SecCertificateCopyFieldValues :
    SecCertificateRef → CssmOid → OSStatus * FieldValues;
  SecCertificateReleaseFieldValues :
    SecCertificateRef → CssmOid → FieldValues → OSStatus;
}.

(** One entry per call made into the library, with what it returned. *)
Inductive CLCall : Type :=
| CopyFirstFieldValue (cert : SecCertificateRef) (oid : CssmOid)
    (rc : OSStatus) (value : FieldValue)
| ReleaseFirstFieldValue (cert : SecCertificateRef) (oid : CssmOid)
    (value : FieldValue) (rc : OSStatus)
| CopyFieldValues (cert : SecCertificateRef) (oid : CssmOid)
    (rc : OSStatus) (values : FieldValues)
| ReleaseFieldValues (cert : SecCertificateRef) (oid : CssmOid)
    (values : FieldValues) (rc : OSStatus).

#[global] Instance CLCall_eq_dec : EqDecision CLCall.
Proof. solve_decision. Defined.

Definition call_status (c : CLCall) : OSStatus :=
  match c with
  | CopyFirstFieldValue _ _ rc _ => rc
  | ReleaseFirstFieldValue _ _ _ rc => rc
  | CopyFieldValues _ _ rc _ => rc
  | ReleaseFieldValues _ _ _ rc => rc
  end.

(** ** Computations that call the certificate library

    A computation yields the calls it made, in order, and how it ended. *)

Definition CL (A : Type) : Type := list CLCall * Outcome A.

#[global] Instance CL_ret : MRet CL := λ A a, ([], Return a).

#[global] Instance CL_bind : MBind CL := λ A B k m,
  match m with
  | (log, Return a) => let '(log', r) := k a in (log ++ log', r)
  | (log, Throw e) => (log, Throw e)
  | (log, AssertionFailed) => (log, AssertionFailed)
  end.

Definition calls {A} (m : CL A) : list CLCall := fst m.
Definition outcome {A} (m : CL A) : Outcome A := snd m.

(** [assert(cert)], taken as compiled in: a null reference stops the
    function before any call into the library.  (Built with [NDEBUG] the
    check is absent and a null reference is passed on to the library like
    any other; the statements below are about references that are not
    null, or hold either way.) *)
Definition assert (b : bool) : CL unit :=
  if b then mret tt else ([], AssertionFailed).

(** [MacOSError::throwMe], and [MacOSError::check], which throws any
    status other than [noErr]. *)
Definition MacOSError_throwMe {A} (rc : OSStatus) : CL A :=
  ([], Throw (MacOSError rc)).

Definition MacOSError_check (rc : OSStatus) : CL unit :=
  if bool_decide (rc = noErr) then mret tt else MacOSError_throwMe rc.

Section CertificateCalls.
Variable cl : CertLibrary.

Definition copyFirstFieldValue (cert : SecCertificateRef) (oid : CssmOid)
  : CL (OSStatus * FieldValue) :=
  let '(rc, value) := SecCertificateCopyFirstFieldValue cl cert oid in
  ([CopyFirstFieldValue cert oid rc value], Return (rc, value)).

Definition releaseFirstFieldValue (cert : SecCertificateRef) (oid : CssmOid)
    (value : FieldValue) : CL OSStatus :=
  let rc := SecCertificateReleaseFirstFieldValue cl cert oid value in
  ([ReleaseFirstFieldValue cert oid value rc], Return rc).

Definition copyFieldValues (cert : SecCertificateRef) (oid : CssmOid)
  : CL (OSStatus * FieldValues) :=
  let '(rc, values) := SecCertificateCopyFieldValues cl cert oid in
  ([CopyFieldValues cert oid rc values], Return (rc, values)).

Definition releaseFieldValues (cert : SecCertificateRef) (oid : CssmOid)
    (values : FieldValues) : CL OSStatus :=
  let rc := SecCertificateReleaseFieldValues cl cert oid values in
  ([ReleaseFieldValues cert oid values rc], Return rc).
End CertificateCalls.

(** ** hashOfCertificate *)

(** [hashOfCertificate(certData, certLength, digest)]: the range
    [certData[0 .. certLength)] is the list. *)
Definition hashOfCertificate (certData : list byte) : Digest :=
  let hasher := SHA1_new in
  let hasher := SHA1_update hasher certData in
  SHA1_finish hasher.

(** [hashOfCertificate(cert, digest)]: [assert(cert)], then
    [MacOSError::check] on the status of [SecCertificateGetData], then
    the byte form on the data it gave. *)
Definition hashOfCertificate_cert (cl : CertLibrary) (cert : SecCertificateRef)
  : Outcome Digest :=
  if bool_decide (cert = NULL) then AssertionFailed
  else
    let '(rc, certData) := SecCertificateGetData cl cert in
    if bool_decide (rc = noErr) then Return (hashOfCertificate certData)
    else Throw (MacOSError rc).

(** ** certificateHasField *)

(** The scan of the null-terminated array:
    [for (p = values; *p; p++) if (oid == ext->extnId) { found = true; break; }] *)
Fixpoint scanFieldValues (oid : CssmOid) (p : list CSSM_X509_EXTENSION) : bool :=
  match p with
  | [] => false
  | ext :: p' =>
      if bool_decide (oid = extnId ext) then true else scanFieldValues oid p'
  end.

(** The switch on the fast path either returns from the function
    ([Some result]) or breaks out to the code below it ([None]). *)
Definition certificateHasField_switch (cl : CertLibrary)
    (cert : SecCertificateRef) (oid : CssmOid) : CL (option bool) :=
  '(rc, value) ← copyFirstFieldValue cl cert oid;
  if bool_decide (rc = noErr) then
    rc' ← releaseFirstFieldValue cl cert oid value;
    MacOSError_check rc';;
    mret (Some true)
  else if bool_decide (rc = CSSMERR_CL_UNKNOWN_TAG cl) then
    mret None
  else
    MacOSError_throwMe rc.

Definition certificateHasField_bag (cl : CertLibrary)
    (cert : SecCertificateRef) (oid : CssmOid) : CL bool :=
  let ext_oid := CSSMOID_X509V3CertificateExtensionCStruct cl in
  '(rc, values) ← copyFieldValues cl cert ext_oid;
  if bool_decide (rc ≠ 0) then
    mret false
  else
    let found :=
      match values with
      | Some p => scanFieldValues oid p
      | None => false
      end in
    rc' ← releaseFieldValues cl cert ext_oid values;
    MacOSError_check rc';;
    mret found.

Definition certificateHasField (cl : CertLibrary)
    (cert : SecCertificateRef) (oid : CssmOid) : CL bool :=
  assert (bool_decide (cert ≠ NULL));;
  early ← certificateHasField_switch cl cert oid;
  match early with
  | Some result => mret result
  | None => certificateHasField_bag cl cert oid
  end.

(** ** hashFileData *)

(** [size_t] is an unsigned integer type of the platform's width;
    arithmetic on it is taken modulo [SIZE_MAX + 1]. *)
Class SizeT : Type := SIZE_MAX : Z.

Definition wrap `{SizeT} (x : Z) : Z := x mod (SIZE_MAX + 1).

#[global] Instance size_t_32 : SizeT | 10 := 2 ^ 32 - 1.
#[global] Instance size_t_64 : SizeT | 5 := 2 ^ 64 - 1.

(** [UnixPlusPlus::FileDesc]: [read] delivers the bytes it put into the
    buffer (their number is its return value) or throws; [atEnd] is the
    end-of-file indicator of the descriptor. *)
Class FileDescOps (FD : Type) : Type := {
  fd_read : FD → Z → Outcome (list byte * FD);
  fd_atEnd : FD → bool;
}.

(** What [hashFileData] leaves behind: the value returned or the
    exception thrown, the descriptor, and the caller's hasher. *)
Record hashed (FD : Type) : Type := Hashed {
  hf_outcome : Outcome Z;
  hf_fd : FD;
  hf_hasher : SHA1;
}.
Arguments Hashed {FD} _ _ _.
Arguments hf_outcome {FD} _.
Arguments hf_fd {FD} _.
Arguments hf_hasher {FD} _.

Definition sizeof_buffer : Z := 4096.

Section HashFileData.
Context `{SizeT} {FD : Type} `{FileDescOps FD}.

(** [size = sizeof(buffer); if (limit && limit < size) size = limit;] *)
Definition request_size (limit : Z) : Z :=
  if negb (limit =? 0) && (limit <? sizeof_buffer) then limit
  else sizeof_buffer.

(** The [for (;;)] loop, one iteration per unit of fuel; [None] when
    the fuel runs out before a [break]. *)
Fixpoint hashFileData_loop (fuel : nat) (fd : FD) (hasher : SHA1)
    (total limit : Z) : option (hashed FD) :=
  match fuel with
  | O => None
  | S fuel' =>
      let size := request_size limit in
      match fd_read fd size with
      | Throw e => Some (Hashed (Throw e) fd hasher)
      | AssertionFailed => Some (Hashed AssertionFailed fd hasher)
      | Return (buffer, fd) =>
          let got := Z.of_nat (length buffer) in
          let total := wrap (total + got) in
          if fd_atEnd fd then
            Some (Hashed (Return total) fd hasher)
          else
            let hasher := SHA1_update hasher buffer in
            if negb (limit =? 0) then
              let limit := wrap (limit - got) in
              if limit =? 0 then Some (Hashed (Return total) fd hasher)
              else hashFileData_loop fuel' fd hasher total limit
            else hashFileData_loop fuel' fd hasher total limit
      end
  end.

(** [hashFileData(fd, hasher, limit)] *)
Definition hashFileData (fuel : nat) (fd : FD) (hasher : SHA1) (limit : Z)
  : option (hashed FD) :=
  hashFileData_loop fuel fd hasher 0 limit.

(** [hashFileData(path, hasher)], over the constructor
    [AutoFileDesc fd(path)]; no descriptor is left behind when the file
    could not be opened. *)
Definition hashFileData_path (open : list byte → Outcome FD)
    (fuel : nat) (path : list byte) (hasher : SHA1)
  : option (Outcome Z * option FD * SHA1) :=
  match open path with
  | Return fd =>
      r ← hashFileData fuel fd hasher 0;
      Some (hf_outcome r, Some (hf_fd r), hf_hasher r)
  | Throw e => Some (Throw e, None, hasher)
  | AssertionFailed => Some (AssertionFailed, None, hasher)
  end.
End HashFileData.

(** ** Copyfile *)

(** The host file-copy facility's state calls ([copyfile_state_alloc],
    [copyfile_state_set], [copyfile_state_get]).
    A [void *value] argument is the memory it points to: [set] reads it,
    [get] yields what that memory holds afterwards.  Each call gives its
    return code and the [errno] it leaves. *)
Definition Value := list byte.

Class CopyfileLib (State : Type) : Type := {
  copyfile_state_alloc : option State * Z;
  copyfile_state_set : State → Z → Value → (Z * Z) * State;
  copyfile_state_get : State → Z → Value → (Z * Z) * Value;
}.

Section Copyfile.
Context {State : Type} `{CopyfileLib State}.

(** [Copyfile::check(rc)]: [UnixError::throwMe()] throws the current
    [errno]. *)
Definition Copyfile_check (r : Z * Z) : Outcome unit :=
  let '(rc, errno) := r in
  if rc <? 0 then Throw (UnixError errno) else Return tt.

(** [Copyfile::Copyfile()] *)
Definition Copyfile_new : Outcome State :=
  match copyfile_state_alloc with
  | (Some mState, _) => Return mState
  | (None, errno) => Throw (UnixError errno)
  end.

(** [Copyfile::set(flag, value)]: the state afterwards and the outcome. *)
Definition Copyfile_set (mState : State) (flag : Z) (value : Value)
  : State * Outcome unit :=
  let '(r, mState) := copyfile_state_set mState flag value in
  (mState, Copyfile_check r).

(** [Copyfile::get(flag, value)]: the state and the memory behind
    [value] afterwards, and the outcome. *)
Definition Copyfile_get (mState : State) (flag : Z) (value : Value)
  : State * Value * Outcome unit :=
  let '(r, mState) := copyfile_state_set mState flag value in
  (mState, value, Copyfile_check r).

(** [Copyfile::operator () (src, dst, flags)], over the facility's
    [copyfile(src, dst, state, flags)]. *)
Definition Copyfile_call
    (copyfile : list byte → list byte → State → Z → (Z * Z) * State)
    (mState : State) (src dst : list byte) (flags : Z)
  : State * Outcome unit :=
  let '(r, mState) := copyfile src dst mState flags in
  (mState, Copyfile_check r).
End Copyfile.

(** ** Contracts of the host facilities *)

(** A descriptor on a regular file.  [content] and [position] give the
    file's bytes and the cursor; [valid] is whatever the implementation
    keeps invariant.  A read of [n > 0] bytes delivers at most [n] of
    the bytes at the cursor and advances it by that many; the at-end
    indicator is raised only with the cursor at (or past) the end, and
    is raised by a read that delivers nothing. *)
Record RegularFile `{FileDescOps FD}
    (content : FD → list byte) (position : FD → nat) (valid : FD → Prop)
  : Prop := {
  regular_read : ∀ fd n, valid fd → 0 < n →
    ∃ buffer fd',
      fd_read fd n = Return (buffer, fd') ∧ valid fd' ∧
      buffer = take (length buffer) (drop (position fd) (content fd)) ∧
      Z.of_nat (length buffer) ≤ n ∧
      content fd' = content fd ∧
      position fd' = (position fd + length buffer)%nat ∧
      (fd_atEnd fd' = true → (length (content fd) ≤ position fd')%nat) ∧
      (buffer = [] → fd_atEnd fd' = true);
}.

(** What a certificate library shows of one certificate: [exts] are the
    extensions the certificate carries and [recognized] the OIDs the
    library parses natively.
    - the first-field query answers [CSSMERR_CL_UNKNOWN_TAG] exactly for
      the OIDs that are not recognized, and [noErr] for a recognized OID
      exactly when the certificate carries it;
    - the extension C-struct field holds the extensions with OIDs that
      are not recognized; the query for it fails only when there are none;
    - releasing what a successful query returned succeeds. *)
Definition carries (exts : list CSSM_X509_EXTENSION) (oid : CssmOid) : Prop :=
  ∃ ext, ext ∈ exts ∧ extnId ext = oid.

Record CertificateView (cl : CertLibrary) (cert : SecCertificateRef)
    (exts : list CSSM_X509_EXTENSION) (recognized : CssmOid → bool)
  : Prop := {
  first_unknown_tag : ∀ oid,
    (SecCertificateCopyFirstFieldValue cl cert oid).1 = CSSMERR_CL_UNKNOWN_TAG cl
    ↔ recognized oid = false;
  first_found : ∀ oid, recognized oid = true →
    ((SecCertificateCopyFirstFieldValue cl cert oid).1 = noErr
     ↔ carries exts oid);
  first_release : ∀ oid value,
    SecCertificateCopyFirstFieldValue cl cert oid = (noErr, value) →
    SecCertificateReleaseFirstFieldValue cl cert oid value = noErr;
  bag_contents : ∀ values oid,
    SecCertificateCopyFieldValues cl cert
      (CSSMOID_X509V3CertificateExtensionCStruct cl) = (noErr, values) →
    recognized oid = false →
    (carries (default [] values) oid ↔ carries exts oid);
  bag_failure : ∀ oid,
    (SecCertificateCopyFieldValues cl cert
       (CSSMOID_X509V3CertificateExtensionCStruct cl)).1 ≠ noErr →
    recognized oid = false → ¬ carries exts oid;
  bag_release : ∀ values,
    SecCertificateCopyFieldValues cl cert
      (CSSMOID_X509V3CertificateExtensionCStruct cl) = (noErr, values) →
    SecCertificateReleaseFieldValues cl cert
      (CSSMOID_X509V3CertificateExtensionCStruct cl) values = noErr;
}.

(** ** Reference instances of the host facilities *)

(** A file with a cursor.  [eager] selects when the at-end indicator is
    raised: by the read that delivers no bytes, or ([eager]) already by
    the read that reaches the end of the file. *)
Record file : Type := File {
  f_content : list byte;
  f_offset : nat;
  f_atEnd : bool;
  f_eager : bool;
}.

Definition file_read (fd : file) (n : Z) : list byte * file :=
  let buffer := take (Z.to_nat n) (drop (f_offset fd) (f_content fd)) in
  let offset := (f_offset fd + length buffer)%nat in
  let atEnd :=
    if f_eager fd then bool_decide (length (f_content fd) ≤ offset)%nat
    else f_atEnd fd || ((0 <? n) && bool_decide (buffer = [])) in
  (buffer, File (f_content fd) offset atEnd (f_eager fd)).

#[global] Instance file_ops : FileDescOps file := {|
  fd_read := λ fd n, Return (file_read fd n);
  fd_atEnd := f_atEnd;
|}.

Definition file_valid (fd : file) : Prop :=
  f_atEnd fd = true → (length (f_content fd) ≤ f_offset fd)%nat.

(** A certificate library over a store of parsed certificates, with a
    built-in list of OIDs it parses natively. *)
Record Certificate : Type := {
  der : CSSM_DATA;
  extensions : list CSSM_X509_EXTENSION;
}.

Definition find_extension (oid : CssmOid) (exts : list CSSM_X509_EXTENSION)
  : option CSSM_X509_EXTENSION :=
  head (filter (λ ext, extnId ext = oid) exts).

Definition unrecognized (known : list CssmOid) (exts : list CSSM_X509_EXTENSION)
  : list CSSM_X509_EXTENSION :=
  filter (λ ext, extnId ext ∉ known) exts.

(** The status codes and the field identifier of this library; any
    distinct non-zero codes would do. *)
Definition paramErr : OSStatus := -50.
Definition unknown_tag_code : OSStatus := -67687.
Definition no_field_values_code : OSStatus := -67647.
Definition extension_cstruct_oid : CssmOid := [x2a; x86; x48; x01; x14].

Definition storeCL (known : list CssmOid) (store : gmap Z Certificate)
  : CertLibrary := {|
  CSSMERR_CL_UNKNOWN_TAG := unknown_tag_code;
  CSSMERR_CL_UNKNOWN_TAG_distinct := ltac:(discriminate);
  CSSMOID_X509V3CertificateExtensionCStruct := extension_cstruct_oid;
  SecCertificateGetData := λ cert,
    match store !! cert with
    | Some c => (noErr, der c)
    | None => (paramErr, [])
    end;
  SecCertificateCopyFirstFieldValue := λ cert oid,
    match store !! cert with
    | Some c =>
        if bool_decide (oid ∈ known) then
          match find_extension oid (extensions c) with
          | Some ext => (noErr, Some (BERvalue ext))
          | None => (no_field_values_code, None)
          end
        else (unknown_tag_code, None)
    | None => (paramErr, None)
    end;
  SecCertificateReleaseFirstFieldValue := λ cert oid value, noErr;
  SecCertificateCopyFieldValues := λ cert oid,
    match store !! cert with
    | Some c =>
        match unrecognized known (extensions c) with
        | [] => (no_field_values_code, None)
        | bag => (noErr, Some bag)
        end
    | None => (paramErr, None)
    end;
  SecCertificateReleaseFieldValues := λ cert oid values, noErr;
|}.

(** The file-copy state as the bindings recorded under the state keys
    (1 to 5 in [copyfile.h]: source and destination descriptor and name,
    quarantine information). *)
Definition EINVAL : Z := 22.

Definition copyfile_key (flag : Z) : bool := (1 <=? flag) && (flag <=? 5).

#[global] Instance copyfile_bindings : CopyfileLib (gmap Z Value) := {|
  copyfile_state_alloc := (Some ∅, 0);
  copyfile_state_set := λ s flag value,
    if copyfile_key flag then ((0, 0), <[flag := value]> s)
    else ((-1, EINVAL), s);
  copyfile_state_get := λ s flag value,
    if copyfile_key flag then ((0, 0), default [] (s !! flag))
    else ((-1, EINVAL), value);
|}.

(** ** Concrete inputs

    The file of three bytes "abc", once behind a descriptor that reports
    end-of-file on the read that delivers nothing and once behind an
    eager one; a certificate [leaf] with a key usage extension and an
    extension under the OID 1.2.840.113635.100.6.1.2 and a certificate
    [plain] with key usage only, in a library that parses key usage and
    subject alternative name natively. *)
Definition abc : list byte := ["a"; "b"; "c"]%byte.
Definition file_abc : file := File abc 0 false false.
Definition eager_abc : file := File abc 0 false true.

Definition oid_keyUsage : CssmOid := [x55; x1d; x0f].
Definition oid_subjectAltName : CssmOid := [x55; x1d; x11].
Definition oid_apple_6_1_2 : CssmOid :=
  [x2a; x86; x48; x86; xf7; x63; x64; x06; x01; x02].
Definition oid_1_2_3_4_5 : CssmOid := [x2a; x03; x04; x05].

Definition leaf_exts : list CSSM_X509_EXTENSION :=
  [ {| extnId := oid_keyUsage; critical := true;
       BERvalue := [x03; x02; x07; x80] |};
    {| extnId := oid_apple_6_1_2; critical := false;
       BERvalue := [x05; x00] |} ].

Definition leaf : Certificate :=
  {| der := [x30; x00; x00]; extensions := leaf_exts |}.

Definition plain_exts : list CSSM_X509_EXTENSION :=
  [ {| extnId := oid_keyUsage; critical := true;
       BERvalue := [x03; x02; x05; xa0] |} ].

Definition plain : Certificate :=
  {| der := [x30; x03; x02; x01; x01]; extensions := plain_exts |}.

Definition known_oids : list CssmOid := [oid_keyUsage; oid_subjectAltName].

Definition stockCL : CertLibrary :=
  storeCL known_oids {[ 1 := leaf; 2 := plain ]}.

(** The same store behind a library that parses no extension natively. *)
Definition bareCL : CertLibrary :=
  storeCL [] {[ 1 := leaf; 2 := plain ]}.

(** The state key of the source descriptor and two [int] values. *)
Definition COPYFILE_STATE_SRC_FD : Z := 1.
Definition int_7 : Value := [x07; x00; x00; x00].
Definition int_0 : Value := [x00; x00; x00; x00].

Definition is_known (known : list CssmOid) (oid : CssmOid) : bool :=
  bool_decide (oid ∈ known).

(** ** Measures used in the statements *)

(** The number of bytes in a sequence of reads. *)
Definition chunk_bytes (chunks : list (list byte)) : Z :=
  Z.of_nat (length (concat chunks)).

(** The bytes from the cursor to the end of the file. *)
Definition remaining {FD : Type} (content : FD → list byte)
    (position : FD → nat) (fd : FD) : Z :=
  Z.of_nat (length (content fd)) - Z.of_nat (position fd).

(** What is left to read under [limit]: all of it when [limit] is zero. *)
Definition span {FD : Type} (content : FD → list byte)
    (position : FD → nat) (fd : FD) (limit : Z) : Z :=
  if limit =? 0 then remaining content position fd
  else Z.min (remaining content position fd) limit.

(** What the scan of the array of field values computes for [oid]
    ([if (values) for ...], with [found] initially false). *)
Definition found_in (oid : CssmOid) (values : FieldValues) : bool :=
  match values with
  | Some p => scanFieldValues oid p
  | None => false
  end.

(** ** Further descriptors *)

(** A descriptor that plays back a script: each read delivers the next
    chunk of the script, and fails with [EIO] once the script is used
    up; the at-end indicator is never raised. *)
Record scripted : Type := Scripted { script : list (list byte) }.

Definition EIO : Z := 5.

#[global] Instance scripted_ops : FileDescOps scripted := {|
  fd_read := λ fd n,
    match script fd with
    | chunk :: rest => Return (chunk, Scripted rest)
    | [] => Throw (UnixError EIO)
    end;
  fd_atEnd := λ fd, false;
|}.

(** A non-blocking descriptor with nothing to deliver: every read
    returns no bytes and the at-end indicator stays down. *)
Inductive stalled : Type := Stalled.

#[global] Instance stalled_ops : FileDescOps stalled := {|
  fd_read := λ fd n, Return ([], Stalled);
  fd_atEnd := λ fd, false;
|}.

(** A descriptor together with the sizes of the reads made on it. *)
Definition logged_ops `{FileDescOps FD} : FileDescOps (FD * list Z) := {|
  fd_read := λ fdl n,
    match fd_read fdl.1 n with
    | Return (buffer, fd') => Return (buffer, (fd', fdl.2 ++ [n]))
    | Throw e => Throw e
    | AssertionFailed => AssertionFailed
    end;
  fd_atEnd := λ fdl, fd_atEnd fdl.1;
|}.

(** Properties of descriptors used as hypotheses: a read delivers no
    more than it was asked for; the at-end indicator is raised only by a
    read that delivered nothing. *)
Definition bounded_reads `{FileDescOps FD} : Prop :=
  ∀ fd n buffer fd',
    0 < n → fd_read fd n = Return (buffer, fd') →
    Z.of_nat (length buffer) ≤ n.

Definition end_on_empty_read `{FileDescOps FD} (valid : FD → Prop) : Prop :=
  ∀ fd n buffer fd',
    valid fd → 0 < n → fd_read fd n = Return (buffer, fd') →
    fd_atEnd fd' = true → buffer = [].

Definition lazy_file (fd : file) : Prop :=
  file_valid fd ∧ f_eager fd = false.

(** The certificate and the field a call into the library names. *)
Definition call_cert (c : CLCall) : SecCertificateRef :=
  match c with
  | CopyFirstFieldValue cert _ _ _ => cert
  | ReleaseFirstFieldValue cert _ _ _ => cert
  | CopyFieldValues cert _ _ _ => cert
  | ReleaseFieldValues cert _ _ _ => cert
  end.

Definition call_field (c : CLCall) : CssmOid :=
  match c with
  | CopyFirstFieldValue _ oid _ _ => oid
  | ReleaseFirstFieldValue _ oid _ _ => oid
  | CopyFieldValues _ oid _ _ => oid
  | ReleaseFieldValues _ oid _ _ => oid
  end.

(** The five shapes a run of [certificateHasField] can have. *)
Inductive hasField_run (cl : CertLibrary) (cert : SecCertificateRef)
    (oid : CssmOid) : CL bool → Prop :=
| run_null :
    cert = NULL →
    hasField_run cl cert oid ([], AssertionFailed)
| run_first_found value rc :
    cert ≠ NULL →
    hasField_run cl cert oid
      ([CopyFirstFieldValue cert oid noErr value;
        ReleaseFirstFieldValue cert oid value rc],
       if bool_decide (rc = noErr) then Return true
       else Throw (MacOSError rc))
| run_first_error rc value :
    cert ≠ NULL → rc ≠ noErr → rc ≠ CSSMERR_CL_UNKNOWN_TAG cl →
    hasField_run cl cert oid
      ([CopyFirstFieldValue cert oid rc value], Throw (MacOSError rc))
| run_bag_failed value rc values :
    cert ≠ NULL → rc ≠ noErr →
    hasField_run cl cert oid
      ([CopyFirstFieldValue cert oid (CSSMERR_CL_UNKNOWN_TAG cl) value;
        CopyFieldValues cert (CSSMOID_X509V3CertificateExtensionCStruct cl)
          rc values],
       Return false)
| run_bag_scanned value values rc :
    cert ≠ NULL →
    hasField_run cl cert oid
      ([CopyFirstFieldValue cert oid (CSSMERR_CL_UNKNOWN_TAG cl) value;
        CopyFieldValues cert (CSSMOID_X509V3CertificateExtensionCStruct cl)
          noErr values;
        ReleaseFieldValues cert (CSSMOID_X509V3CertificateExtensionCStruct cl)
          values rc],
       if bool_decide (rc = noErr) then Return (found_in oid values)
       else Throw (MacOSError rc)).

(** * Properties *)

(** ** hashFileData: single iterations and whole runs *)

Lemma chunk_bytes_snoc chunks last :
  chunk_bytes (chunks ++ [last]) = chunk_bytes chunks + Z.of_nat (length last).
Proof.
  unfold chunk_bytes. rewrite concat_app, !length_app. simpl.
  rewrite app_nil_r. lia.
Qed.

Lemma chunk_bytes_cons first chunks :
  chunk_bytes (first :: chunks) = Z.of_nat (length first) + chunk_bytes chunks.
Proof. unfold chunk_bytes. simpl. rewrite length_app. lia. Qed.

Section HashFileDataFacts.
Context `{SizeT} {FD : Type} `{FileDescOps FD}.

Lemma wrap_small x : 0 ≤ x ≤ SIZE_MAX → wrap x = x.
Proof. intros. unfold wrap. apply Z.mod_small. lia. Qed.

Lemma wrap_add_l x y : wrap (wrap x + y) = wrap (x + y).
Proof. unfold wrap. apply Zplus_mod_idemp_l. Qed.

Lemma request_size_pos limit : 0 ≤ limit → 0 < request_size limit.
Proof.
  intros. unfold request_size, sizeof_buffer.
  destruct (limit =? 0) eqn:E; simpl; [lia|].
  destruct (limit <? 4096); lia.
Qed.

Lemma request_size_le_limit limit :
  limit ≠ 0 → request_size limit ≤ limit.
Proof.
  intros. unfold request_size, sizeof_buffer.
  destruct (limit =? 0) eqn:E; simpl; [lia|].
  destruct (limit <? 4096) eqn:E'; lia.
Qed.

(** The iteration on which the descriptor reports end-of-file: the
    bytes just read are added to the total and the loop is left before
    the hasher is called. *)
Lemma loop_at_end fuel fd hasher total limit buffer fd' :
  fd_read fd (request_size limit) = Return (buffer, fd') →
  fd_atEnd fd' = true →
  hashFileData_loop (S fuel) fd hasher total limit
  = Some (Hashed (Return (wrap (total + Z.of_nat (length buffer)))) fd' hasher).
Proof. intros Hread Hend. simpl. rewrite Hread, Hend. reflexivity. Qed.

(** The iteration on which a positive limit reaches zero: the bytes
    just read are given to the hasher, then the loop is left. *)
Lemma loop_limit_reached fuel fd hasher total limit buffer fd' :
  fd_read fd (request_size limit) = Return (buffer, fd') →
  fd_atEnd fd' = false →
  limit ≠ 0 →
  wrap (limit - Z.of_nat (length buffer)) = 0 →
  hashFileData_loop (S fuel) fd hasher total limit
  = Some (Hashed (Return (wrap (total + Z.of_nat (length buffer)))) fd'
            (SHA1_update hasher buffer)).
Proof.
  intros Hread Hend Hlimit Hzero. simpl. rewrite Hread, Hend.
  destruct (Z.eqb_spec limit 0) as [|_]; [done|]. simpl.
  rewrite Hzero. reflexivity.
Qed.

(** Every other iteration hashes what it read and goes round again. *)
Lemma loop_continue fuel fd hasher total limit buffer fd' :
  fd_read fd (request_size limit) = Return (buffer, fd') →
  fd_atEnd fd' = false →
  (limit ≠ 0 → wrap (limit - Z.of_nat (length buffer)) ≠ 0) →
  hashFileData_loop (S fuel) fd hasher total limit
  = hashFileData_loop fuel fd' (SHA1_update hasher buffer)
      (wrap (total + Z.of_nat (length buffer)))
      (if limit =? 0 then limit else wrap (limit - Z.of_nat (length buffer))).
Proof.
  intros Hread Hend Hlimit. simpl. rewrite Hread, Hend.
  destruct (Z.eqb_spec limit 0) as [|Hne]; simpl; [done|].
  destruct (Z.eqb_spec (wrap (limit - Z.of_nat (length buffer))) 0); [|done].
  by destruct Hlimit.
Qed.

(** A run that returns: [chunks] are the reads of the iterations before
    the last one and [last] is the read of the last one, made with
    limit [limit0] from descriptor [fd0].  All of them are counted;
    [last] is hashed only when the run did not end on end-of-file. *)
Lemma loop_run fuel : ∀ fd hasher total limit r t,
  hashFileData_loop fuel fd hasher total limit = Some r →
  hf_outcome r = Return t →
  ∃ chunks last fd0 limit0,
    fd_read fd0 (request_size limit0) = Return (last, hf_fd r) ∧
    t = wrap (total + chunk_bytes chunks + Z.of_nat (length last)) ∧
    (limit = 0 → limit0 = 0) ∧
    if fd_atEnd (hf_fd r)
    then appended (hf_hasher r) = appended hasher ++ chunks
    else appended (hf_hasher r) = appended hasher ++ chunks ++ [last]
         ∧ limit0 ≠ 0 ∧ wrap (limit0 - Z.of_nat (length last)) = 0.
Proof.
  induction fuel as [|fuel IH]; intros fd hasher total limit r t Hrun Ht;
    [done|].
  simpl in Hrun.
  destruct (fd_read fd (request_size limit)) as [[buffer fd']| |] eqn:Hread;
    [|by simplify_eq..].
  destruct (fd_atEnd fd') eqn:Hend.
  { simplify_eq. simpl in *. simplify_eq.
    exists [], buffer, fd, limit. rewrite Hend, app_nil_r.
    split; [done|]. split; [|done].
    f_equal. unfold chunk_bytes. simpl. lia. }
  destruct (Z.eqb_spec limit 0) as [Hz|Hnz]; simpl in Hrun.
  - destruct (IH _ _ _ _ _ _ Hrun Ht)
      as (chunks & last & fd0 & limit0 & Hlast & Hsum & Hlim & Hhash).
    exists (buffer :: chunks), last, fd0, limit0.
    split; [done|]. split.
    { rewrite Hsum, chunk_bytes_cons, <- !Z.add_assoc, wrap_add_l.
        f_equal. lia. }
    split; [done|].
    destruct (fd_atEnd (hf_fd r)); simpl in Hhash;
      [|destruct Hhash as (Hhash & ? & ?); split; [|done]];
      rewrite Hhash, <- app_assoc; done.
  - destruct (Z.eqb_spec (wrap (limit - Z.of_nat (length buffer))) 0)
      as [Hzero|Hmore].
    + simplify_eq. simpl in *. simplify_eq.
      exists [], buffer, fd, limit. rewrite Hend. simpl.
      split; [done|]. split; [|done].
      f_equal. unfold chunk_bytes. simpl. lia.
    + destruct (IH _ _ _ _ _ _ Hrun Ht)
        as (chunks & last & fd0 & limit0 & Hlast & Hsum & Hlim & Hhash).
      exists (buffer :: chunks), last, fd0, limit0.
      split; [done|]. split.
      { rewrite Hsum, chunk_bytes_cons, <- !Z.add_assoc, wrap_add_l.
        f_equal. lia. }
      split; [done|].
      destruct (fd_atEnd (hf_fd r)); simpl in Hhash;
        [|destruct Hhash as (Hhash & ? & ?); split; [|done]];
        rewrite Hhash, <- app_assoc; done.
Qed.
End HashFileDataFacts.

(** ** hashFileData on a regular file *)

Section RegularFileFacts.
Context `{SizeT} {FD : Type} `{FileDescOps FD}.
Variables (content : FD → list byte) (position : FD → nat)
  (valid : FD → Prop).
Hypothesis regular : RegularFile content position valid.

#[local] Abbreviation remaining := (remaining content position).
#[local] Abbreviation span := (span content position).

Lemma read_within fd buffer :
  buffer = take (length buffer) (drop (position fd) (content fd)) →
  (position fd ≤ length (content fd))%nat →
  Z.of_nat (length buffer) ≤ remaining fd.
Proof.
  intros Hbuf Hpos. unfold remaining.
  assert (length buffer ≤ length (content fd) - position fd)%nat; [|lia].
  rewrite Hbuf, length_take, length_drop. lia.
Qed.

(** With more fuel than bytes left, the loop returns; it has then
    counted [span] more bytes and moved the cursor by as many. *)
Lemma loop_regular n : ∀ fuel fd hasher total limit,
  valid fd →
  (position fd ≤ length (content fd))%nat →
  remaining fd ≤ Z.of_nat n →
  (n < fuel)%nat →
  0 ≤ total → total + remaining fd ≤ SIZE_MAX →
  0 ≤ limit ≤ SIZE_MAX →
  ∃ r, hashFileData_loop fuel fd hasher total limit = Some r ∧
       hf_outcome r = Return (total + span fd limit) ∧
       Z.of_nat (position (hf_fd r)) = Z.of_nat (position fd) + span fd limit.
Proof.
  induction n as [|n IH];
    intros [|fuel] fd hasher total limit Hvalid Hpos Hrem Hfuel Htot Hmax Hlim;
    try lia.
  all: destruct (regular_read _ _ _ regular fd (request_size limit) Hvalid
                   (request_size_pos limit (proj1 Hlim)))
    as (buffer & fd' & Hread & Hvalid' & Hbuf & Hlen & Hcontent & Hposition
        & Hend & Hempty).
  all: pose proof (read_within fd buffer Hbuf Hpos)
    as Hwithin.
  all: assert (remaining fd' = remaining fd - Z.of_nat (length buffer)) as Hrem'
    by (unfold remaining; rewrite Hcontent, Hposition; lia).
  all: destruct (fd_atEnd fd') eqn:Hat.
  all: try (
    (* end of file: everything that was left has been read *)
    rewrite (loop_at_end _ _ _ _ _ _ _ Hread Hat);
    eexists; split; [reflexivity|]; simpl;
    specialize (Hend eq_refl);
    assert (Z.of_nat (length buffer) = remaining fd) as Hall
      by (unfold remaining in *; lia);
    assert (span fd limit = remaining fd) as ->
      by (unfold span; destruct (Z.eqb_spec limit 0); [done|];
          pose proof (request_size_le_limit limit); lia);
    rewrite Hall, Hposition; split; [f_equal; apply wrap_small|]; lia).
  - (* nothing left, yet no end of file: excluded by the contract *)
    assert (buffer = []) as -> by (apply length_zero_iff_nil; lia).
    specialize (Hempty eq_refl). congruence.
  - assert (position fd' ≤ length (content fd'))%nat as Hpos'
      by (rewrite Hcontent, Hposition; unfold remaining in Hwithin; lia).
    assert (buffer ≠ []) as Hsome
      by (intros ->; specialize (Hempty eq_refl); congruence).
    assert (0 < Z.of_nat (length buffer)) as Hgot
      by (destruct buffer; [done|simpl; lia]).
    destruct (Z.eqb_spec limit 0) as [Hz|Hnz].
    + (* no limit *)
      rewrite (loop_continue _ _ _ _ _ _ _ Hread Hat) by done.
      rewrite (proj2 (Z.eqb_eq limit 0) Hz).
      rewrite wrap_small by lia.
      destruct (IH fuel fd' (SHA1_update hasher buffer)
                  (total + Z.of_nat (length buffer)) limit Hvalid' Hpos')
        as (r & Hrun & Hout & Hcur); [lia..|].
      exists r. split; [done|].
      unfold span in *. rewrite (proj2 (Z.eqb_eq limit 0) Hz) in *.
      rewrite Hout, Hcur, Hrem', Hposition. split; [f_equal|]; lia.
    + pose proof (request_size_le_limit limit Hnz) as Hreq.
      assert (wrap (limit - Z.of_nat (length buffer))
              = limit - Z.of_nat (length buffer)) as Hw
        by (apply wrap_small; lia).
      destruct (Z.eq_dec (limit - Z.of_nat (length buffer)) 0) as [Hdone|Hmore].
      * (* the limit is used up *)
        rewrite (loop_limit_reached _ _ _ _ _ _ _ Hread Hat Hnz)
          by (rewrite Hw; done).
        eexists; split; [reflexivity|]. simpl.
        assert (span fd limit = Z.of_nat (length buffer)) as ->
          by (unfold span; rewrite (proj2 (Z.eqb_neq limit 0) Hnz); lia).
        rewrite Hposition. split; [f_equal; apply wrap_small|]; lia.
      * rewrite (loop_continue _ _ _ _ _ _ _ Hread Hat)
          by (rewrite Hw; done).
        rewrite (proj2 (Z.eqb_neq limit 0) Hnz), Hw.
        rewrite wrap_small by lia.
        destruct (IH fuel fd' (SHA1_update hasher buffer)
                    (total + Z.of_nat (length buffer))
                    (limit - Z.of_nat (length buffer)) Hvalid' Hpos')
          as (r & Hrun & Hout & Hcur); [lia..|].
        exists r. split; [done|].
        assert (span fd' (limit - Z.of_nat (length buffer))
                = span fd limit - Z.of_nat (length buffer)) as Hspan.
        { unfold span.
          rewrite (proj2 (Z.eqb_neq limit 0) Hnz).
          rewrite (proj2 (Z.eqb_neq _ 0) Hmore). lia. }
        rewrite Hout, Hcur, Hspan, Hposition. split; [f_equal|]; lia.
Qed.
End RegularFileFacts.

(** The reference descriptor is one on a regular file, under either
    end-of-file policy. *)
Lemma file_regular : RegularFile f_content f_offset file_valid.
Proof.
  constructor. intros fd n Hvalid Hn.
  set (rest := drop (f_offset fd) (f_content fd)).
  set (buffer := take (Z.to_nat n) rest).
  assert (length buffer = Z.to_nat n `min` length rest)%nat as Hlen
    by apply length_take.
  assert (length rest = length (f_content fd) - f_offset fd)%nat as Hrest
    by apply length_drop.
  assert (buffer = [] → length (f_content fd) ≤ f_offset fd)%nat as Hnil.
  { intros Hb. rewrite Hb in Hlen. simpl in Hlen. lia. }
  exists buffer, (file_read fd n).2.
  split; [reflexivity|]. simpl. fold rest. fold buffer.
  assert ((if f_eager fd
           then bool_decide (length (f_content fd) ≤ f_offset fd + length buffer)%nat
           else f_atEnd fd || ((0 <? n) && bool_decide (buffer = []))) = true
          → (length (f_content fd) ≤ f_offset fd + length buffer)%nat) as Hend.
  { destruct (f_eager fd).
    - intros Hd. apply bool_decide_eq_true in Hd. done.
    - intros Hor. apply orb_true_iff in Hor as [Hold|Hnow].
      + specialize (Hvalid Hold). lia.
      + apply andb_true_iff in Hnow as [_ Hb].
        apply bool_decide_eq_true in Hb. specialize (Hnil Hb). lia. }
  split; [exact Hend|].
  split.
  { destruct (decide (Z.to_nat n ≤ length rest)%nat).
    - replace (length buffer) with (Z.to_nat n) by lia. done.
    - replace (length buffer) with (length rest) by lia.
      rewrite firstn_all. unfold buffer. apply take_ge. lia. }
  split; [lia|]. split; [done|]. split; [done|]. split; [exact Hend|].
  intros Hb. destruct (f_eager fd).
  - apply bool_decide_eq_true. specialize (Hnil Hb). lia.
  - rewrite (proj2 (Z.ltb_lt 0 n) Hn). simpl.
    rewrite (bool_decide_eq_true_2 _ Hb). apply orb_true_r.
Qed.

(** ** Claims on hashFileData *)

(** C2.  A run of [hashFileData] over a descriptor that ends on the
    end-of-file check ([atEnd] holds of the descriptor it leaves) has
    tested for end-of-file before hashing: the bytes [last] of that final
    read are in the returned total, next to the bytes [chunks] of the
    reads before it, but the caller's hasher was given [chunks] only. *)
Theorem hashFileData_eof_read_counted_not_hashed
    `{SizeT} {FD : Type} `{FileDescOps FD}
    (fuel : nat) (fd : FD) (hasher : SHA1) (limit : Z) (r : hashed FD) (t : Z) :
  hashFileData fuel fd hasher limit = Some r →
  hf_outcome r = Return t →
  fd_atEnd (hf_fd r) = true →
  ∃ chunks last fd0 limit0,
    fd_read fd0 (request_size limit0) = Return (last, hf_fd r) ∧
    t = wrap (chunk_bytes chunks + Z.of_nat (length last)) ∧
    appended (hf_hasher r) = appended hasher ++ chunks.
Proof.
  intros Hrun Hout Hend.
  destruct (loop_run fuel fd hasher 0 limit r t Hrun Hout)
    as (chunks & last & fd0 & limit0 & Hlast & Hsum & _ & Hhash).
  rewrite Hend in Hhash. exists chunks, last, fd0, limit0.
  rewrite Z.add_0_l in Hsum. done.
Qed.

(** On the eager descriptor over "abc" the single read delivers all
    three bytes and raises the indicator: 3 is returned and the hasher
    has been given nothing. *)
Example hashFileData_eager_abc :
  hashFileData 2 eager_abc SHA1_new 0
  = Some (Hashed (Return 3) (File abc 3 true true) SHA1_new).
Proof. reflexivity. Qed.

Lemma hashFileData_eof_read_counted_not_hashed_witness :
  ∃ chunks last fd0 limit0,
    fd_read fd0 (request_size limit0) = Return (last, File abc 3 true true) ∧
    3 = wrap (chunk_bytes chunks + Z.of_nat (length last)) ∧
    appended SHA1_new = appended SHA1_new ++ chunks.
Proof.
  apply (hashFileData_eof_read_counted_not_hashed 2 eager_abc SHA1_new 0
           (Hashed (Return 3) (File abc 3 true true) SHA1_new) 3);
    reflexivity.
Defined.

(** C10.  A run of [hashFileData] that ends with the descriptor not at
    end-of-file ended because a non-zero limit ran out, and the bytes
    [last] of its final read were given to the hasher before the break:
    what the hasher received is exactly the reads the total counts. *)
Theorem hashFileData_limit_read_counted_and_hashed
    `{SizeT} {FD : Type} `{FileDescOps FD}
    (fuel : nat) (fd : FD) (hasher : SHA1) (limit : Z) (r : hashed FD) (t : Z) :
  hashFileData fuel fd hasher limit = Some r →
  hf_outcome r = Return t →
  fd_atEnd (hf_fd r) = false →
  limit ≠ 0 ∧
  ∃ chunks last fd0 limit0,
    fd_read fd0 (request_size limit0) = Return (last, hf_fd r) ∧
    limit0 ≠ 0 ∧ wrap (limit0 - Z.of_nat (length last)) = 0 ∧
    appended (hf_hasher r) = appended hasher ++ chunks ++ [last] ∧
    t = wrap (chunk_bytes (chunks ++ [last])).
Proof.
  intros Hrun Hout Hend.
  destruct (loop_run fuel fd hasher 0 limit r t Hrun Hout)
    as (chunks & last & fd0 & limit0 & Hlast & Hsum & Hzero & Hhash).
  rewrite Hend in Hhash. destruct Hhash as (Hhash & Hnz & Hused).
  split; [intros Hz; apply Hnz, Hzero, Hz|].
  exists chunks, last, fd0, limit0.
  rewrite chunk_bytes_snoc. rewrite Z.add_0_l in Hsum. done.
Qed.

Lemma hashFileData_limit_read_counted_and_hashed_witness :
  2 ≠ 0 ∧
  ∃ chunks last fd0 limit0,
    fd_read fd0 (request_size limit0) = Return (last, File abc 2 false false) ∧
    limit0 ≠ 0 ∧ wrap (limit0 - Z.of_nat (length last)) = 0 ∧
    appended (SHA1_update SHA1_new ["a"; "b"]%byte)
    = appended SHA1_new ++ chunks ++ [last] ∧
    2 = wrap (chunk_bytes (chunks ++ [last])).
Proof.
  apply (hashFileData_limit_read_counted_and_hashed 1 file_abc SHA1_new 2
           (Hashed (Return 2) (File abc 2 false false)
              (SHA1_update SHA1_new ["a"; "b"]%byte)) 2);
    reflexivity.
Defined.

(** C3.  On a regular file, from position 0 and with limit [L]
    (a [size_t], as is the length of the file), [hashFileData] returns
    once it has more fuel than the file has bytes; it returns the length
    of the file when [L] is 0 and the smaller of the length and [L]
    otherwise, and leaves the cursor that many bytes further. *)
Theorem hashFileData_returns_min
    `{SizeT} {FD : Type} `{FileDescOps FD}
    (content : FD → list byte) (position : FD → nat) (valid : FD → Prop)
    (fuel : nat) (fd : FD) (hasher : SHA1) (L : Z) :
  RegularFile content position valid →
  valid fd →
  position fd = 0%nat →
  0 ≤ L ≤ SIZE_MAX →
  Z.of_nat (length (content fd)) ≤ SIZE_MAX →
  (length (content fd) < fuel)%nat →
  ∃ r, hashFileData fuel fd hasher L = Some r ∧
       hf_outcome r
       = Return (if L =? 0 then Z.of_nat (length (content fd))
                 else Z.min (Z.of_nat (length (content fd))) L) ∧
       Z.of_nat (position (hf_fd r))
       = (if L =? 0 then Z.of_nat (length (content fd))
          else Z.min (Z.of_nat (length (content fd))) L).
Proof.
  intros Hreg Hvalid Hpos HL Hlen Hfuel.
  destruct (loop_regular content position valid Hreg (length (content fd))
              fuel fd hasher 0 L Hvalid)
    as (r & Hrun & Hout & Hcur);
    try (unfold remaining; lia).
  exists r. split; [exact Hrun|].
  unfold span, remaining in *. rewrite Hpos in *.
  rewrite Hout, Hcur. rewrite !Z.sub_0_r, !Z.add_0_l. done.
Qed.

Lemma hashFileData_returns_min_witness :
  ∃ r, hashFileData 4 file_abc SHA1_new 2 = Some r ∧
       hf_outcome r = Return 2 ∧ Z.of_nat (f_offset (hf_fd r)) = 2.
Proof.
  apply (hashFileData_returns_min f_content f_offset file_valid
           4 file_abc SHA1_new 2 file_regular).
  - unfold file_valid. simpl. discriminate.
  - reflexivity.
  - vm_compute. split; discriminate.
  - vm_compute. discriminate.
  - simpl. lia.
Defined.

(** C8.  Called on a regular file with the cursor at (or beyond) the
    end, [hashFileData] returns 0 after its first read and hands back the
    caller's hasher as it was: no byte range was appended to it. *)
Theorem hashFileData_at_eof_returns_zero
    `{SizeT} {FD : Type} `{FileDescOps FD}
    (content : FD → list byte) (position : FD → nat) (valid : FD → Prop)
    (fuel : nat) (fd : FD) (hasher : SHA1) (limit : Z) :
  RegularFile content position valid →
  valid fd →
  (length (content fd) ≤ position fd)%nat →
  0 ≤ limit →
  ∃ fd', hashFileData (S fuel) fd hasher limit
         = Some (Hashed (Return 0) fd' hasher) ∧
         position fd' = position fd.
Proof.
  intros Hreg Hvalid Hpos Hlimit.
  destruct (regular_read _ _ _ Hreg fd (request_size limit) Hvalid
              (request_size_pos limit Hlimit))
    as (buffer & fd' & Hread & _ & Hbuf & _ & _ & Hposition & _ & Hempty).
  assert (buffer = []) as ->.
  { rewrite Hbuf, drop_ge by lia. apply take_nil. }
  exists fd'. unfold hashFileData.
  rewrite (loop_at_end _ _ _ _ _ _ _ Hread (Hempty eq_refl)).
  simpl in *. split; [|lia]. unfold wrap. simpl. by rewrite Zmod_0_l.
Qed.

Lemma hashFileData_at_eof_returns_zero_witness :
  ∃ fd', hashFileData 1 (File abc 3 false false) SHA1_new 0
         = Some (Hashed (Return 0) fd' SHA1_new) ∧
         f_offset fd' = 3%nat.
Proof.
  apply (hashFileData_at_eof_returns_zero f_content f_offset file_valid
           0 (File abc 3 false false) SHA1_new 0 file_regular).
  - unfold file_valid. simpl. discriminate.
  - simpl. lia.
  - lia.
Defined.

(** ** certificateHasField: the four ways through the function *)

Section CertificateHasFieldFacts.
Variables (cl : CertLibrary) (cert : SecCertificateRef) (oid : CssmOid).
Hypothesis cert_not_null : cert ≠ NULL.

#[local] Abbreviation ext_oid := (CSSMOID_X509V3CertificateExtensionCStruct cl).

#[local] Abbreviation found_in := (found_in oid).

Lemma assert_not_null : bool_decide (cert ≠ NULL) = true.
Proof. by apply bool_decide_eq_true. Qed.

(** Fast path, field found: release, then [true] (or the release's
    failure). *)
Lemma hasField_first_found value :
  SecCertificateCopyFirstFieldValue cl cert oid = (noErr, value) →
  certificateHasField cl cert oid
  = ([CopyFirstFieldValue cert oid noErr value;
      ReleaseFirstFieldValue cert oid value
        (SecCertificateReleaseFirstFieldValue cl cert oid value)],
     if bool_decide (SecCertificateReleaseFirstFieldValue cl cert oid value = noErr)
     then Return true
     else Throw (MacOSError (SecCertificateReleaseFirstFieldValue cl cert oid value))).
Proof.
  intros Hfirst.
  unfold certificateHasField, certificateHasField_switch, copyFirstFieldValue,
    releaseFirstFieldValue, MacOSError_check, MacOSError_throwMe.
  rewrite assert_not_null, Hfirst. cbn.
  by destruct (bool_decide
    (SecCertificateReleaseFirstFieldValue cl cert oid value = noErr)).
Qed.

(** Fast path, any status but [noErr] and [CSSMERR_CL_UNKNOWN_TAG]. *)
Lemma hasField_first_error rc value :
  SecCertificateCopyFirstFieldValue cl cert oid = (rc, value) →
  rc ≠ noErr → rc ≠ CSSMERR_CL_UNKNOWN_TAG cl →
  certificateHasField cl cert oid
  = ([CopyFirstFieldValue cert oid rc value], Throw (MacOSError rc)).
Proof.
  intros Hfirst Hrc Htag.
  unfold certificateHasField, certificateHasField_switch, copyFirstFieldValue,
    MacOSError_throwMe.
  rewrite assert_not_null, Hfirst. cbn.
  by rewrite (bool_decide_eq_false_2 _ Hrc), (bool_decide_eq_false_2 _ Htag).
Qed.

(** Unknown tag: the function goes on with the bag. *)
Lemma hasField_unknown_tag value :
  SecCertificateCopyFirstFieldValue cl cert oid
  = (CSSMERR_CL_UNKNOWN_TAG cl, value) →
  certificateHasField cl cert oid
  = (CopyFirstFieldValue cert oid (CSSMERR_CL_UNKNOWN_TAG cl) value
       :: calls (certificateHasField_bag cl cert oid),
     outcome (certificateHasField_bag cl cert oid)).
Proof.
  intros Hfirst.
  unfold certificateHasField, certificateHasField_switch, copyFirstFieldValue.
  rewrite assert_not_null, Hfirst. cbn.
  rewrite (bool_decide_eq_false_2 _ (CSSMERR_CL_UNKNOWN_TAG_distinct cl)).
  rewrite bool_decide_eq_true_2 by done. cbn.
  by destruct (certificateHasField_bag cl cert oid) as [log []].
Qed.

(** Slow path, the query for the bag fails. *)
Lemma hasField_bag_failed rc values :
  SecCertificateCopyFieldValues cl cert ext_oid = (rc, values) →
  rc ≠ noErr →
  certificateHasField_bag cl cert oid
  = ([CopyFieldValues cert ext_oid rc values], Return false).
Proof.
  intros Hbag Hrc.
  unfold certificateHasField_bag, copyFieldValues.
  rewrite Hbag. cbn. by rewrite (bool_decide_eq_true_2 _ Hrc).
Qed.

(** Slow path, the query succeeds: scan, release, then the result of the
    scan (or the release's failure). *)
Lemma hasField_bag_scanned values :
  SecCertificateCopyFieldValues cl cert ext_oid = (noErr, values) →
  certificateHasField_bag cl cert oid
  = ([CopyFieldValues cert ext_oid noErr values;
      ReleaseFieldValues cert ext_oid values
        (SecCertificateReleaseFieldValues cl cert ext_oid values)],
     if bool_decide (SecCertificateReleaseFieldValues cl cert ext_oid values = noErr)
     then Return (found_in values)
     else Throw (MacOSError (SecCertificateReleaseFieldValues cl cert ext_oid values))).
Proof.
  intros Hbag.
  unfold certificateHasField_bag, copyFieldValues, releaseFieldValues,
    MacOSError_check, MacOSError_throwMe.
  rewrite Hbag. cbn.
  by destruct (bool_decide
    (SecCertificateReleaseFieldValues cl cert ext_oid values = noErr)).
Qed.
End CertificateHasFieldFacts.

Lemma scanFieldValues_carries oid p :
  scanFieldValues oid p = true ↔ carries p oid.
Proof.
  unfold carries. induction p as [|ext p IH]; simpl.
  - split; [done|]. intros (ext & Hin & _). by apply elem_of_nil in Hin.
  - case_bool_decide as Heq.
    + split; [|done]. intros _. exists ext. split; [left|done].
    + rewrite IH. split.
      * intros (ext' & Hin & Hid). exists ext'. split; [by right|done].
      * intros (ext' & Hin & Hid). apply elem_of_cons in Hin as [->|Hin].
        -- congruence.
        -- by exists ext'.
Qed.

(** ** Claims on certificateHasField *)

(** C5.  The three outcomes of the fast path.  When
    [SecCertificateCopyFirstFieldValue] reports [noErr] the value it gave
    is released and [true] is returned (a release that itself fails is
    thrown by [MacOSError::check]); on [CSSMERR_CL_UNKNOWN_TAG] the
    function goes on with the slow path; any other status is thrown as a
    [MacOSError] carrying it, with no further call made. *)
Theorem certificateHasField_fast_path
    (cl : CertLibrary) (cert : SecCertificateRef) (oid : CssmOid)
    (rc : OSStatus) (value : FieldValue) :
  cert ≠ NULL →
  SecCertificateCopyFirstFieldValue cl cert oid = (rc, value) →
  (rc = noErr →
     calls (certificateHasField cl cert oid)
     = [CopyFirstFieldValue cert oid noErr value;
        ReleaseFirstFieldValue cert oid value
          (SecCertificateReleaseFirstFieldValue cl cert oid value)] ∧
     outcome (certificateHasField cl cert oid)
     = if bool_decide (SecCertificateReleaseFirstFieldValue cl cert oid value = noErr)
       then Return true
       else Throw (MacOSError (SecCertificateReleaseFirstFieldValue cl cert oid value)))
  ∧ (rc = CSSMERR_CL_UNKNOWN_TAG cl →
     calls (certificateHasField cl cert oid)
     = CopyFirstFieldValue cert oid rc value
         :: calls (certificateHasField_bag cl cert oid) ∧
     outcome (certificateHasField cl cert oid)
     = outcome (certificateHasField_bag cl cert oid))
  ∧ (rc ≠ noErr → rc ≠ CSSMERR_CL_UNKNOWN_TAG cl →
     calls (certificateHasField cl cert oid)
     = [CopyFirstFieldValue cert oid rc value] ∧
     outcome (certificateHasField cl cert oid) = Throw (MacOSError rc)).
Proof.
  intros Hcert Hfirst. split; [|split].
  - intros ->. by rewrite (hasField_first_found cl cert oid Hcert value).
  - intros ->. by rewrite (hasField_unknown_tag cl cert oid Hcert value).
  - intros. by rewrite (hasField_first_error cl cert oid Hcert rc value).
Qed.

(** C6.  When the fast path ends on the unknown tag and the query for
    the field values of the extension C-struct fails, the function
    returns [false] and throws nothing.  No other failure is absorbed:
    a call that reports a non-zero status is the first-field query with
    the unknown tag, or that failed query (and the result is [false]), or
    its status is what the function throws. *)
Theorem certificateHasField_bag_query_failure
    (cl : CertLibrary) (cert : SecCertificateRef) (oid : CssmOid) :
  cert ≠ NULL →
  (∀ value rc values,
     SecCertificateCopyFirstFieldValue cl cert oid
     = (CSSMERR_CL_UNKNOWN_TAG cl, value) →
     SecCertificateCopyFieldValues cl cert
       (CSSMOID_X509V3CertificateExtensionCStruct cl) = (rc, values) →
     rc ≠ noErr →
     certificateHasField cl cert oid
     = ([CopyFirstFieldValue cert oid (CSSMERR_CL_UNKNOWN_TAG cl) value;
         CopyFieldValues cert (CSSMOID_X509V3CertificateExtensionCStruct cl)
           rc values],
        Return false))
  ∧ (∀ c, c ∈ calls (certificateHasField cl cert oid) →
       call_status c ≠ noErr →
       (∃ value, c = CopyFirstFieldValue cert oid (CSSMERR_CL_UNKNOWN_TAG cl) value)
       ∨ (∃ rc values,
            c = CopyFieldValues cert
                  (CSSMOID_X509V3CertificateExtensionCStruct cl) rc values
            ∧ outcome (certificateHasField cl cert oid) = Return false)
       ∨ outcome (certificateHasField cl cert oid)
         = Throw (MacOSError (call_status c))).
Proof.
  intros Hcert. split.
  - intros value rc values Hfirst Hbag Hrc.
    rewrite (hasField_unknown_tag cl cert oid Hcert value Hfirst).
    by rewrite (hasField_bag_failed cl cert oid rc values Hbag Hrc).
  - intros c.
    destruct (SecCertificateCopyFirstFieldValue cl cert oid) as [rc value]
      eqn:Hfirst.
    destruct (decide (rc = noErr)) as [->|Hrc].
    { rewrite (hasField_first_found cl cert oid Hcert value Hfirst).
      unfold calls, outcome. simpl. intros Hin Hstatus.
      apply elem_of_cons in Hin as [->|Hin]; [done|].
      apply list_elem_of_singleton in Hin as ->. simpl in *.
      right; right. by rewrite (bool_decide_eq_false_2 _ Hstatus). }
    destruct (decide (rc = CSSMERR_CL_UNKNOWN_TAG cl)) as [->|Htag].
    2:{ rewrite (hasField_first_error cl cert oid Hcert rc value Hfirst Hrc Htag).
        unfold calls, outcome. simpl. intros Hin Hstatus.
        apply list_elem_of_singleton in Hin as ->. by right; right. }
    rewrite (hasField_unknown_tag cl cert oid Hcert value Hfirst).
    destruct (SecCertificateCopyFieldValues cl cert
                (CSSMOID_X509V3CertificateExtensionCStruct cl))
      as [rc values] eqn:Hbag.
    destruct (decide (rc = noErr)) as [->|Hfail].
    + rewrite (hasField_bag_scanned cl cert oid values Hbag).
      unfold calls, outcome. simpl. intros Hin Hstatus.
      apply elem_of_cons in Hin as [->|Hin]; [left; by eexists|].
      apply elem_of_cons in Hin as [->|Hin]; [done|].
      apply list_elem_of_singleton in Hin as ->. simpl in *.
      right; right. by rewrite (bool_decide_eq_false_2 _ Hstatus).
    + rewrite (hasField_bag_failed cl cert oid rc values Hbag Hfail).
      unfold calls, outcome. simpl. intros Hin Hstatus.
      apply elem_of_cons in Hin as [->|Hin]; [left; by eexists|].
      apply list_elem_of_singleton in Hin as ->.
      right; left. by eexists _, _.
Qed.

(** C7.  Whenever the query for all field values succeeds (its entry
    in the log of calls carries [noErr]: it was made on the certificate
    passed in, for the extension C-struct field, and that is what the
    library answered), the array it returned is handed to the library's
    [SecCertificateReleaseFieldValues], for the same certificate and
    field, and that is the last thing the function does before it ends,
    whether the scan found the OID or not: what it then returns is the
    result of the scan, unless the library's release reports an error,
    which is thrown. *)
Theorem certificateHasField_releases_field_values
    (cl : CertLibrary) (cert : SecCertificateRef) (oid : CssmOid)
    (cert' : SecCertificateRef) (field : CssmOid) (values : FieldValues) :
  CopyFieldValues cert' field noErr values
    ∈ calls (certificateHasField cl cert oid) →
  cert' = cert ∧
  field = CSSMOID_X509V3CertificateExtensionCStruct cl ∧
  SecCertificateCopyFieldValues cl cert field = (noErr, values) ∧
  (∃ before,
     calls (certificateHasField cl cert oid)
     = before ++ [CopyFieldValues cert field noErr values;
                  ReleaseFieldValues cert field values
                    (SecCertificateReleaseFieldValues cl cert field values)]) ∧
  outcome (certificateHasField cl cert oid)
  = if bool_decide (SecCertificateReleaseFieldValues cl cert field values = noErr)
    then Return (found_in oid values)
    else Throw (MacOSError (SecCertificateReleaseFieldValues cl cert field values)).
Proof.
  destruct (decide (cert = NULL)) as [->|Hcert].
  { cbn. intros Hin. by apply elem_of_nil in Hin. }
  destruct (SecCertificateCopyFirstFieldValue cl cert oid) as [rc value]
    eqn:Hfirst.
  destruct (decide (rc = noErr)) as [->|Hrc].
  { rewrite (hasField_first_found cl cert oid Hcert value Hfirst).
    unfold calls. simpl. intros Hin.
    apply elem_of_cons in Hin as [?|Hin]; [done|].
    by apply list_elem_of_singleton in Hin. }
  destruct (decide (rc = CSSMERR_CL_UNKNOWN_TAG cl)) as [->|Htag].
  2:{ rewrite (hasField_first_error cl cert oid Hcert rc value Hfirst Hrc Htag).
      unfold calls. simpl. intros Hin.
      by apply list_elem_of_singleton in Hin. }
  rewrite (hasField_unknown_tag cl cert oid Hcert value Hfirst).
  destruct (SecCertificateCopyFieldValues cl cert
              (CSSMOID_X509V3CertificateExtensionCStruct cl))
    as [rc values0] eqn:Hbag.
  destruct (decide (rc = noErr)) as [->|Hfail].
  - rewrite (hasField_bag_scanned cl cert oid values0 Hbag).
    unfold calls, outcome. simpl. intros Hin.
    apply elem_of_cons in Hin as [?|Hin]; [done|].
    apply elem_of_cons in Hin as [Heq|Hin];
      [|by apply list_elem_of_singleton in Hin].
    injection Heq as -> -> ->.
    split; [done|]. split; [done|]. split; [done|].
    split; [by eexists [_]|done].
  - rewrite (hasField_bag_failed cl cert oid rc values0 Hbag Hfail).
    unfold calls. simpl. intros Hin.
    apply elem_of_cons in Hin as [?|Hin]; [done|].
    apply list_elem_of_singleton in Hin. injection Hin as _ _ Hrc' _.
    congruence.
Qed.

Lemma certificateHasField_fast_path_witness :
  calls (certificateHasField stockCL 1 oid_keyUsage)
  = [CopyFirstFieldValue 1 oid_keyUsage noErr (Some [x03; x02; x07; x80]);
     ReleaseFirstFieldValue 1 oid_keyUsage (Some [x03; x02; x07; x80]) noErr] ∧
  outcome (certificateHasField stockCL 1 oid_keyUsage) = Return true.
Proof.
  assert (1 ≠ NULL) as Hcert by discriminate.
  destruct (certificateHasField_fast_path stockCL 1 oid_keyUsage noErr
              (Some [x03; x02; x07; x80]) Hcert eq_refl) as (Hfound & _ & _).
  exact (Hfound eq_refl).
Defined.

Lemma certificateHasField_bag_query_failure_witness :
  certificateHasField stockCL 2 oid_apple_6_1_2
  = ([CopyFirstFieldValue 2 oid_apple_6_1_2 unknown_tag_code None;
      CopyFieldValues 2 extension_cstruct_oid no_field_values_code None],
     Return false).
Proof.
  assert (2 ≠ NULL) as Hcert by discriminate.
  destruct (certificateHasField_bag_query_failure stockCL 2 oid_apple_6_1_2
              Hcert) as (Hfalse & _).
  apply (Hfalse None no_field_values_code None); [reflexivity..|discriminate].
Defined.

Lemma certificateHasField_releases_field_values_witness :
  1 = 1 ∧
  extension_cstruct_oid = CSSMOID_X509V3CertificateExtensionCStruct stockCL ∧
  SecCertificateCopyFieldValues stockCL 1 extension_cstruct_oid
  = (noErr, Some (unrecognized known_oids leaf_exts)) ∧
  (∃ before,
     calls (certificateHasField stockCL 1 oid_apple_6_1_2)
     = before ++ [CopyFieldValues 1 extension_cstruct_oid noErr
                    (Some (unrecognized known_oids leaf_exts));
                  ReleaseFieldValues 1 extension_cstruct_oid
                    (Some (unrecognized known_oids leaf_exts)) noErr]) ∧
  outcome (certificateHasField stockCL 1 oid_apple_6_1_2) = Return true.
Proof.
  apply (certificateHasField_releases_field_values stockCL 1 oid_apple_6_1_2
           1 extension_cstruct_oid (Some (unrecognized known_oids leaf_exts))).
  vm_compute. right; left.
Defined.

(** The store library shows each stored certificate as the contract
    says, with its built-in list as the recognized OIDs. *)
Lemma find_extension_Some oid exts ext :
  find_extension oid exts = Some ext → carries exts oid.
Proof.
  unfold find_extension. intros Hhead.
  assert (ext ∈ filter (λ e, extnId e = oid) exts) as Hin.
  { destruct (filter _ exts); simplify_eq/=. left. }
  apply list_elem_of_filter in Hin as [Hid Hin]. by exists ext.
Qed.

Lemma find_extension_None oid exts :
  find_extension oid exts = None → ¬ carries exts oid.
Proof.
  unfold find_extension. intros Hhead (ext & Hin & Hid).
  assert (ext ∈ filter (λ e, extnId e = oid) exts) as Hin'
    by (by apply list_elem_of_filter).
  destruct (filter _ exts); [by apply elem_of_nil in Hin'|done].
Qed.

Lemma unrecognized_carries known exts oid :
  oid ∉ known → (carries (unrecognized known exts) oid ↔ carries exts oid).
Proof.
  intros Hnew. unfold carries, unrecognized. split.
  - intros (ext & Hin & Hid). apply list_elem_of_filter in Hin as [_ Hin].
    by exists ext.
  - intros (ext & Hin & Hid). exists ext. split; [|done].
    apply list_elem_of_filter. by rewrite Hid.
Qed.

Lemma storeCL_view known store cert c :
  store !! cert = Some c →
  CertificateView (storeCL known store) cert (extensions c) (is_known known).
Proof.
  intros Hstored. unfold is_known. constructor; simpl; rewrite ?Hstored.
  - intros oid. case_bool_decide as Hk; [|done].
    split; [|done]. destruct (find_extension oid (extensions c)); done.
  - intros oid Hk. rewrite Hk.
    destruct (find_extension oid (extensions c)) as [ext|] eqn:Hfind; simpl.
    + split; [|done]. intros _. by eapply find_extension_Some.
    + split; [done|]. intros Hc. by apply find_extension_None in Hfind.
  - done.
  - intros values oid Hbag Hk. apply bool_decide_eq_false in Hk.
    destruct (unrecognized known (extensions c)) as [|ext bag] eqn:Hun;
      [done|].
    simplify_eq/=. rewrite <- Hun. by apply unrecognized_carries.
  - intros oid Hfail Hk. apply bool_decide_eq_false in Hk.
    destruct (unrecognized known (extensions c)) as [|ext bag] eqn:Hun;
      [|done].
    intros Hc. apply (unrecognized_carries known) in Hc; [|done].
    rewrite Hun in Hc. destruct Hc as (ext & Hin & _).
    by apply elem_of_nil in Hin.
  - done.
Qed.

(** C1, as the code has it.  For a certificate whose extensions are
    [exts], seen through a library that behaves to its contract,
    [certificateHasField] returns [true] exactly when one of [exts] has
    an OID equal, byte for byte, to the one asked for, whether the
    library recognizes that OID (fast path) or not (the bag of
    unrecognized extensions is scanned).  When the certificate does not
    carry the OID the answer depends on the library: [false] is returned
    exactly for an OID it does not recognize; for one it recognizes the
    status of the first-field query, which is then neither [noErr] nor
    the unknown tag, is thrown. *)
Theorem certificateHasField_answer_by_recognition
    (cl : CertLibrary) (cert : SecCertificateRef)
    (exts : list CSSM_X509_EXTENSION) (recognized : CssmOid → bool)
    (oid : CssmOid) :
  cert ≠ NULL →
  CertificateView cl cert exts recognized →
  (outcome (certificateHasField cl cert oid) = Return true ↔ carries exts oid)
  ∧ (outcome (certificateHasField cl cert oid) = Return false
     ↔ ¬ carries exts oid ∧ recognized oid = false)
  ∧ (recognized oid = false →
     ∃ rc values,
       SecCertificateCopyFieldValues cl cert
         (CSSMOID_X509V3CertificateExtensionCStruct cl) = (rc, values) ∧
       outcome (certificateHasField cl cert oid)
       = Return (bool_decide (rc = noErr) && found_in oid values))
  ∧ (recognized oid = true → ¬ carries exts oid →
     (SecCertificateCopyFirstFieldValue cl cert oid).1 ≠ noErr ∧
     (SecCertificateCopyFirstFieldValue cl cert oid).1
       ≠ CSSMERR_CL_UNKNOWN_TAG cl ∧
     certificateHasField cl cert oid
     = ([CopyFirstFieldValue cert oid
           (SecCertificateCopyFirstFieldValue cl cert oid).1
           (SecCertificateCopyFirstFieldValue cl cert oid).2],
        Throw (MacOSError (SecCertificateCopyFirstFieldValue cl cert oid).1))).
Proof.
  intros Hcert Hview.
  destruct (SecCertificateCopyFirstFieldValue cl cert oid) as [rc value]
    eqn:Hfirst.
  pose proof (first_unknown_tag _ _ _ _ Hview oid) as Htag.
  rewrite Hfirst in Htag. simpl in Htag. simpl.
  destruct (recognized oid) eqn:Hrec.
  - (* a recognized OID: the fast path decides *)
    pose proof (first_found _ _ _ _ Hview oid Hrec) as Hfound.
    rewrite Hfirst in Hfound. simpl in Hfound.
    assert (rc ≠ CSSMERR_CL_UNKNOWN_TAG cl) as Hnot
      by (intros Heq; by apply Htag in Heq).
    destruct (decide (rc = noErr)) as [->|Hrc].
    + rewrite (hasField_first_found cl cert oid Hcert value Hfirst).
      rewrite (first_release _ _ _ _ Hview oid value Hfirst).
      unfold outcome. simpl.
      split; [by rewrite <- Hfound|]. split; [split; [done|by intros [_ ?]]|].
      split; [done|]. intros _ Habsent. destruct Habsent. by apply Hfound.
    + rewrite (hasField_first_error cl cert oid Hcert rc value Hfirst Hrc Hnot).
      unfold outcome. simpl.
      split; [rewrite <- Hfound; split; [done|by intros]|].
      split; [split; [done|by intros [_ ?]]|].
      split; [done|]. done.
  - (* not recognized: the bag decides *)
    assert (rc = CSSMERR_CL_UNKNOWN_TAG cl) as -> by by apply Htag.
    rewrite (hasField_unknown_tag cl cert oid Hcert value Hfirst).
    destruct (SecCertificateCopyFieldValues cl cert
                (CSSMOID_X509V3CertificateExtensionCStruct cl))
      as [rc values] eqn:Hbag.
    destruct (decide (rc = noErr)) as [->|Hfail].
    + rewrite (hasField_bag_scanned cl cert oid values Hbag).
      rewrite (bag_release _ _ _ _ Hview values Hbag).
      unfold outcome. simpl.
      assert (found_in oid values = true ↔ carries exts oid) as Hscan.
      { rewrite <- (bag_contents _ _ _ _ Hview values oid Hbag Hrec).
        destruct values as [p|]; simpl.
        - apply scanFieldValues_carries.
        - split; [done|]. intros (ext & Hin & _). by apply elem_of_nil in Hin. }
      split; [rewrite <- Hscan; split; congruence|].
      split; [|split; [by eexists _, _|done]].
      rewrite <- Hscan. destruct (found_in oid values).
      * split; [done|]. by intros [? _].
      * split; [|done]. intros _. split; [by intros ?|done].
    + rewrite (hasField_bag_failed cl cert oid rc values Hbag Hfail).
      unfold outcome. simpl.
      assert (¬ carries exts oid) as Habsent.
      { apply (bag_failure _ _ _ _ Hview oid); [by rewrite Hbag|done]. }
      split; [split; [done|by intros ?]|].
      split; [done|].
      split; [|done]. intros _. eexists _, _. split; [done|].
      by rewrite (bool_decide_eq_false_2 _ Hfail).
Qed.

Lemma certificateHasField_answer_by_recognition_witness :
  CertificateView stockCL 1 leaf_exts (is_known known_oids) ∧
  (outcome (certificateHasField stockCL 1 oid_apple_6_1_2) = Return true
   ↔ carries leaf_exts oid_apple_6_1_2) ∧
  (outcome (certificateHasField stockCL 1 oid_1_2_3_4_5) = Return false
   ↔ ¬ carries leaf_exts oid_1_2_3_4_5
     ∧ is_known known_oids oid_1_2_3_4_5 = false).
Proof.
  assert (1 ≠ NULL) as Hcert by discriminate.
  assert (CertificateView stockCL 1 leaf_exts (is_known known_oids)) as Hview
    by (apply (storeCL_view known_oids _ 1 leaf); reflexivity).
  split; [exact Hview|]. split.
  - exact (proj1 (certificateHasField_answer_by_recognition stockCL 1
                    leaf_exts (is_known known_oids) oid_apple_6_1_2
                    Hcert Hview)).
  - exact (proj1 (proj2 (certificateHasField_answer_by_recognition stockCL 1
                           leaf_exts (is_known known_oids) oid_1_2_3_4_5
                           Hcert Hview))).
Defined.

(** C1, as stated, fails.  The libraries [stockCL] and [bareCL] show
    the same certificate with the same extensions and both behave to the
    contract; they differ in that only the first recognizes the subject
    alternative name OID, which the certificate does not carry.  Asked
    for that OID, the function returns [false] through the second and
    throws the status of the first-field query through the first: the
    answer is not the same whether or not the library recognizes the
    OID. *)
Lemma certificateHasField_answer_differs_with_recognition :
  CertificateView stockCL 1 leaf_exts (is_known known_oids) ∧
  CertificateView bareCL 1 leaf_exts (is_known []) ∧
  is_known known_oids oid_subjectAltName = true ∧
  is_known [] oid_subjectAltName = false ∧
  ¬ carries leaf_exts oid_subjectAltName ∧
  outcome (certificateHasField stockCL 1 oid_subjectAltName)
  = Throw (MacOSError no_field_values_code) ∧
  outcome (certificateHasField bareCL 1 oid_subjectAltName) = Return false ∧
  outcome (certificateHasField stockCL 1 oid_subjectAltName)
  ≠ outcome (certificateHasField bareCL 1 oid_subjectAltName).
Proof.
  split; [apply (storeCL_view known_oids _ 1 leaf); reflexivity|].
  split; [apply (storeCL_view [] _ 1 leaf); reflexivity|].
  split; [reflexivity|]. split; [reflexivity|].
  split.
  { intros (ext & Hin & Hid). unfold leaf_exts in Hin.
    repeat (apply elem_of_cons in Hin as [->|Hin]; [discriminate Hid|]).
    by apply elem_of_nil in Hin. }
  split; [reflexivity|]. split; [reflexivity|]. discriminate.
Qed.

(** The end-to-end scenarios of the probe: the extension under the
    Apple OID, which the library does not parse, is found through the
    bag; 1.2.3.4.5 is not there; key usage is found on the fast path. *)
Example certificateHasField_scenarios :
  outcome (certificateHasField stockCL 1 oid_apple_6_1_2) = Return true ∧
  outcome (certificateHasField stockCL 1 oid_1_2_3_4_5) = Return false ∧
  outcome (certificateHasField stockCL 1 oid_keyUsage) = Return true.
Proof. repeat split. Qed.

(** Outside the claim: [false] is only ever returned from the slow
    path, so for an OID the library recognizes and the certificate does
    not carry the function ends in the library's status being thrown. *)
Lemma certificateHasField_false_only_from_bag
    (cl : CertLibrary) (cert : SecCertificateRef) (oid : CssmOid) :
  outcome (certificateHasField cl cert oid) = Return false →
  (SecCertificateCopyFirstFieldValue cl cert oid).1 = CSSMERR_CL_UNKNOWN_TAG cl.
Proof.
  destruct (decide (cert = NULL)) as [->|Hcert]; [done|].
  destruct (SecCertificateCopyFirstFieldValue cl cert oid) as [rc value]
    eqn:Hfirst. simpl.
  destruct (decide (rc = noErr)) as [->|Hrc].
  { rewrite (hasField_first_found cl cert oid Hcert value Hfirst).
    unfold outcome. simpl. by case_bool_decide. }
  destruct (decide (rc = CSSMERR_CL_UNKNOWN_TAG cl)) as [->|Htag]; [done|].
  by rewrite (hasField_first_error cl cert oid Hcert rc value Hfirst Hrc Htag).
Qed.

Example certificateHasField_recognized_absent :
  certificateHasField stockCL 1 oid_subjectAltName
  = ([CopyFirstFieldValue 1 oid_subjectAltName no_field_values_code None],
     Throw (MacOSError no_field_values_code)).
Proof. reflexivity. Qed.

(** ** Claims on hashOfCertificate *)

(** The digest function on the test vector "abc" of FIPS 180. *)
Example sha1_abc :
  map Z_of_byte (FIPS180.sha1 abc)
  = [0xa9; 0x99; 0x3e; 0x36; 0x47; 0x06; 0x81; 0x6a; 0xba; 0x3e;
     0x25; 0x71; 0x78; 0x50; 0xc2; 0x6c; 0x9c; 0xd0; 0xd8; 0x9d].
Proof. vm_compute. reflexivity. Qed.

Lemma be_bytes_length n x : length (FIPS180.be_bytes n x) = n.
Proof. unfold FIPS180.be_bytes. by rewrite length_map, length_seq. Qed.

Lemma sha1_length msg : length (FIPS180.sha1 msg) = 20%nat.
Proof.
  unfold FIPS180.sha1.
  destruct (fold_left _ _ _) as [[[[h0 h1] h2] h3] h4].
  by rewrite length_map, !length_app, !be_bytes_length.
Qed.

(** C4.  [hashOfCertificate] of a byte range is the SHA-1 digest of
    exactly those bytes: the hasher is given the range as it is, once,
    and nothing else; the digest has 20 octets.  For a non-null
    certificate whose data the library gives as [B], the certificate form
    returns the digest the byte form gives for [B]. *)
Theorem hashOfCertificate_is_sha1_of_der :
  (∀ B : list byte,
     hashOfCertificate B = FIPS180.sha1 B ∧
     hashOfCertificate B
     = SHA1_finish {| appended := [B] |} ∧
     length (hashOfCertificate B) = 20%nat)
  ∧ (∀ (cl : CertLibrary) (C : SecCertificateRef) (B : list byte),
       C ≠ NULL →
       SecCertificateGetData cl C = (noErr, B) →
       hashOfCertificate_cert cl C = Return (hashOfCertificate B)).
Proof.
  split.
  - intros B.
    assert (hashOfCertificate B = FIPS180.sha1 B) as Hsha.
    { unfold hashOfCertificate, SHA1_finish, SHA1_absorbed, SHA1_update.
      simpl. by rewrite app_nil_r. }
    split; [exact Hsha|]. split; [reflexivity|].
    rewrite Hsha. apply sha1_length.
  - intros cl C B HC Hdata. unfold hashOfCertificate_cert.
    rewrite (bool_decide_eq_false_2 _ HC), Hdata. reflexivity.
Qed.

Lemma hashOfCertificate_is_sha1_of_der_witness :
  hashOfCertificate_cert stockCL 1 = Return (hashOfCertificate [x30; x00; x00]).
Proof.
  apply (proj2 hashOfCertificate_is_sha1_of_der stockCL 1 [x30; x00; x00]).
  - discriminate.
  - reflexivity.
Defined.

(** The digest of the three bytes 30 00 00, computed. *)
Example hashOfCertificate_30_00_00 :
  map Z_of_byte (hashOfCertificate [x30; x00; x00])
  = [0xbb; 0xe0; 0xb4; 0x47; 0xf3; 0xad; 0x33; 0x1c; 0x5d; 0x2d;
     0xea; 0x6e; 0x84; 0x27; 0x61; 0x6c; 0xbe; 0xb3; 0xfa; 0xd3].
Proof. vm_compute. reflexivity. Qed.

(** ** Claims on Copyfile *)

(** [Copyfile::get] is [Copyfile::set] under another name: it makes the
    same call into the facility, so it leaves the memory behind [value]
    as it found it and records that memory under [flag]. *)
Lemma Copyfile_get_is_set `{CopyfileLib State}
    (mState : State) (flag : Z) (value : Value) :
  Copyfile_get mState flag value
  = ((Copyfile_set mState flag value).1, value,
     (Copyfile_set mState flag value).2).
Proof.
  unfold Copyfile_get, Copyfile_set.
  by destruct (copyfile_state_set mState flag value) as [r s].
Qed.

(** In the reference facility a recorded value is what its
    [copyfile_state_get] gives back, for every key it has. *)
Lemma copyfile_bindings_get_after_set
    (s : gmap Z Value) (flag : Z) (value out : Value) :
  copyfile_key flag = true →
  copyfile_state_get (copyfile_state_set s flag value).2 flag out
  = ((0, 0), value).
Proof.
  intros Hkey. cbn. rewrite Hkey. cbn. by rewrite lookup_insert_eq.
Qed.

(** C9, on the code.  After [set(COPYFILE_STATE_SRC_FD, &seven)] on a
    fresh state, [get(COPYFILE_STATE_SRC_FD, &out)] with [out] holding 0
    succeeds, leaves 0 in [out] and overwrites the recorded 7 with that
    0; the facility's [copyfile_state_get] on the state before the [get]
    would have given the 7. *)
Theorem Copyfile_get_after_set_keeps_out :
  let s0 : gmap Z Value := ∅ in
  let s1 := (Copyfile_set s0 COPYFILE_STATE_SRC_FD int_7).1 in
  let '(s2, out, r) := Copyfile_get s1 COPYFILE_STATE_SRC_FD int_0 in
  (Copyfile_set s0 COPYFILE_STATE_SRC_FD int_7).2 = Return tt ∧
  r = Return tt ∧
  out = int_0 ∧ out ≠ int_7 ∧
  s2 !! COPYFILE_STATE_SRC_FD = Some int_0 ∧
  copyfile_state_get s1 COPYFILE_STATE_SRC_FD int_0 = ((0, 0), int_7).
Proof. vm_compute. repeat split; discriminate. Qed.

(** * Further properties *)

(** ** hashFileData over any descriptor *)

Section HashFileDataRuns.
Context `{SizeT} {FD : Type} `{FileDescOps FD}.

(** However a run ends, the hasher has only been appended to, and a run
    that ends in an exception ends in the exception of the read it just
    made on the descriptor it leaves. *)
Lemma loop_any_run fuel : ∀ fd hasher total limit r,
  hashFileData_loop fuel fd hasher total limit = Some r →
  ∃ chunks limit0,
    appended (hf_hasher r) = appended hasher ++ chunks ∧
    match hf_outcome r with
    | Return _ => True
    | Throw e => fd_read (hf_fd r) (request_size limit0) = Throw e
    | AssertionFailed =>
        fd_read (hf_fd r) (request_size limit0) = AssertionFailed
    end.
Proof.
  induction fuel as [|fuel IH]; intros fd hasher total limit r Hrun; [done|].
  simpl in Hrun.
  destruct (fd_read fd (request_size limit)) as [[buffer fd']| |] eqn:Hread.
  - assert (∀ limit' r',
              hashFileData_loop fuel fd' (SHA1_update hasher buffer)
                (wrap (total + Z.of_nat (length buffer))) limit' = Some r' →
              ∃ chunks limit0,
                appended (hf_hasher r') = appended hasher ++ chunks ∧
                match hf_outcome r' with
                | Return _ => True
                | Throw e => fd_read (hf_fd r') (request_size limit0) = Throw e
                | AssertionFailed =>
                    fd_read (hf_fd r') (request_size limit0) = AssertionFailed
                end) as Hnext.
    { intros limit' r' Hrun'.
      destruct (IH _ _ _ _ _ Hrun') as (chunks & limit0 & Happ & Hout).
      exists (buffer :: chunks), limit0. split; [|done].
      rewrite Happ. simpl. by rewrite <- app_assoc. }
    destruct (fd_atEnd fd').
    { simplify_eq. exists [], limit. simpl. by rewrite app_nil_r. }
    destruct (limit =? 0); simpl in Hrun; [by eapply Hnext|].
    destruct (wrap (limit - Z.of_nat (length buffer)) =? 0);
      [|by eapply Hnext].
    simplify_eq. exists [buffer], limit. done.
  - simplify_eq. exists [], limit. simpl. by rewrite app_nil_r.
  - simplify_eq. exists [], limit. simpl. by rewrite app_nil_r.
Qed.

(** With a non-zero limit [total + limit] stays what it was: the reads
    counted and the bytes hashed both stay within it. *)
Lemma loop_within_limit fuel : ∀ fd hasher total limit r t,
  bounded_reads →
  0 ≤ total → 0 < limit → total + limit ≤ SIZE_MAX →
  hashFileData_loop fuel fd hasher total limit = Some r →
  hf_outcome r = Return t →
  total ≤ t ≤ total + limit ∧
  Z.of_nat (length (SHA1_absorbed (hf_hasher r)))
  ≤ Z.of_nat (length (SHA1_absorbed hasher)) + (t - total).
Proof.
  induction fuel as [|fuel IH];
    intros fd hasher total limit r t Hbound Htot Hlim Hmax Hrun Hout; [done|].
  simpl in Hrun.
  destruct (fd_read fd (request_size limit)) as [[buffer fd']| |] eqn:Hread;
    [|by simplify_eq..].
  assert (Z.of_nat (length buffer) ≤ limit) as Hgot.
  { pose proof (Hbound fd _ buffer fd'
                  (request_size_pos limit ltac:(lia)) Hread).
    pose proof (request_size_le_limit limit). lia. }
  rewrite (wrap_small (total + _)) in Hrun by lia.
  destruct (fd_atEnd fd').
  { simplify_eq. simpl in *. simplify_eq. lia. }
  destruct (Z.eqb_spec limit 0) as [|_]; [lia|]. simpl in Hrun.
  rewrite (wrap_small (limit - _)) in Hrun by lia.
  assert (length (SHA1_absorbed (SHA1_update hasher buffer))
          = length (SHA1_absorbed hasher) + length buffer)%nat as Hupd.
  { unfold SHA1_absorbed, SHA1_update. simpl.
    rewrite concat_app, length_app. simpl. rewrite app_nil_r. done. }
  destruct (Z.eqb_spec (limit - Z.of_nat (length buffer)) 0) as [Hz|Hnz].
  { simplify_eq. simpl in *. simplify_eq. lia. }
  destruct (IH fd' (SHA1_update hasher buffer)
              (total + Z.of_nat (length buffer))
              (limit - Z.of_nat (length buffer)) r t Hbound)
    as [Ht Hhashed]; [lia..|done|done|].
  lia.
Qed.
End HashFileDataRuns.

(** X1.  Whatever the descriptor does and however the run ends,
    [hashFileData] only appends to the caller's hasher: the byte ranges
    the hasher held before are still there, in front, so the hasher is
    never reset or finished. *)
Theorem hashFileData_hasher_only_grows
    `{SizeT} {FD : Type} `{FileDescOps FD}
    (fuel : nat) (fd : FD) (hasher : SHA1) (limit : Z) (r : hashed FD) :
  hashFileData fuel fd hasher limit = Some r →
  appended hasher `prefix_of` appended (hf_hasher r) ∧
  SHA1_absorbed hasher `prefix_of` SHA1_absorbed (hf_hasher r).
Proof.
  intros Hrun.
  destruct (loop_any_run fuel fd hasher 0 limit r Hrun)
    as (chunks & _ & Happ & _).
  split; [by exists chunks|].
  exists (concat chunks). unfold SHA1_absorbed. by rewrite Happ, concat_app.
Qed.

Lemma hashFileData_hasher_only_grows_witness :
  appended (SHA1_update SHA1_new [x01])
    `prefix_of` appended (SHA1_update (SHA1_update SHA1_new [x01]) abc) ∧
  SHA1_absorbed (SHA1_update SHA1_new [x01])
    `prefix_of` SHA1_absorbed (SHA1_update (SHA1_update SHA1_new [x01]) abc).
Proof.
  apply (hashFileData_hasher_only_grows 2 file_abc
           (SHA1_update SHA1_new [x01]) 0
           (Hashed (Return 3) (File abc 3 true false)
              (SHA1_update (SHA1_update SHA1_new [x01]) abc))).
  reflexivity.
Defined.

(** X2.  An exception out of [hashFileData] is the exception of a read:
    the run stops at the read that threw, on the descriptor as that read
    found it, and the hasher keeps the byte ranges hashed up to then. *)
Theorem hashFileData_throws_what_read_throws
    `{SizeT} {FD : Type} `{FileDescOps FD}
    (fuel : nat) (fd : FD) (hasher : SHA1) (limit : Z) (r : hashed FD)
    (e : Exception) :
  hashFileData fuel fd hasher limit = Some r →
  hf_outcome r = Throw e →
  ∃ chunks limit0,
    fd_read (hf_fd r) (request_size limit0) = Throw e ∧
    appended (hf_hasher r) = appended hasher ++ chunks.
Proof.
  intros Hrun Hout.
  destruct (loop_any_run fuel fd hasher 0 limit r Hrun)
    as (chunks & limit0 & Happ & Hthrow).
  rewrite Hout in Hthrow. by exists chunks, limit0.
Qed.

Lemma hashFileData_throws_what_read_throws_witness :
  ∃ chunks limit0,
    fd_read (Scripted []) (request_size limit0) = Throw (UnixError EIO) ∧
    appended (SHA1_update SHA1_new abc) = appended SHA1_new ++ chunks.
Proof.
  apply (hashFileData_throws_what_read_throws 3 (Scripted [abc]) SHA1_new 0
           (Hashed (Throw (UnixError EIO)) (Scripted [])
              (SHA1_update SHA1_new abc)) (UnixError EIO));
    reflexivity.
Defined.

(** X3.  With a non-zero limit [L] on a descriptor whose reads deliver
    no more than they are asked for, [hashFileData] returns at most [L],
    and gives the hasher no more bytes than it returns. *)
Theorem hashFileData_at_most_limit
    `{SizeT} {FD : Type} `{FileDescOps FD}
    (fuel : nat) (fd : FD) (hasher : SHA1) (L : Z) (r : hashed FD) (t : Z) :
  bounded_reads →
  0 < L ≤ SIZE_MAX →
  hashFileData fuel fd hasher L = Some r →
  hf_outcome r = Return t →
  0 ≤ t ≤ L ∧
  Z.of_nat (length (SHA1_absorbed (hf_hasher r)))
  ≤ Z.of_nat (length (SHA1_absorbed hasher)) + t.
Proof.
  intros Hbound HL Hrun Hout.
  destruct (loop_within_limit fuel fd hasher 0 L r t Hbound) as [Ht Hhashed];
    [lia..|done|done|].
  split; lia.
Qed.

Lemma file_bounded_reads : @bounded_reads file file_ops.
Proof.
  intros fd n buffer fd' Hn Hread. simpl in Hread. unfold file_read in Hread.
  injection Hread as <- _. rewrite length_take. lia.
Qed.

Lemma hashFileData_at_most_limit_witness :
  0 ≤ 2 ≤ 2 ∧
  Z.of_nat (length (SHA1_absorbed (SHA1_update SHA1_new ["a"; "b"]%byte)))
  ≤ Z.of_nat (length (SHA1_absorbed SHA1_new)) + 2.
Proof.
  apply (hashFileData_at_most_limit 2 file_abc SHA1_new 2
           (Hashed (Return 2) (File abc 2 false false)
              (SHA1_update SHA1_new ["a"; "b"]%byte)) 2 file_bounded_reads).
  - vm_compute. split; [reflexivity|discriminate].
  - reflexivity.
  - reflexivity.
Defined.

(** X4.  On a descriptor that keeps delivering nothing without raising
    the at-end indicator, [hashFileData] never leaves its loop, with or
    without a limit: no amount of fuel yields a result. *)
Theorem hashFileData_spins_without_progress
    `{SizeT} {FD : Type} `{FileDescOps FD}
    (fd : FD) (hasher : SHA1) (limit : Z) (fuel : nat) :
  (∀ n, fd_read fd n = Return ([], fd)) →
  fd_atEnd fd = false →
  0 ≤ limit ≤ SIZE_MAX →
  hashFileData fuel fd hasher limit = None.
Proof.
  intros Hread Hend Hlimit. unfold hashFileData. generalize 0 at 1.
  revert hasher.
  induction fuel as [|fuel IH]; intros hasher total; [done|].
  rewrite (loop_continue _ _ _ _ _ _ _ (Hread _) Hend).
  - simpl. rewrite Z.sub_0_r, (wrap_small limit) by done.
    destruct (limit =? 0); apply IH.
  - intros Hnz. simpl. rewrite Z.sub_0_r, wrap_small; done.
Qed.

Lemma hashFileData_spins_without_progress_witness :
  hashFileData 1000 Stalled SHA1_new 16 = None.
Proof.
  apply (hashFileData_spins_without_progress Stalled SHA1_new 16 1000).
  - reflexivity.
  - reflexivity.
  - vm_compute. split; discriminate.
Defined.

(** ** hashFileData on a regular file: what is hashed *)

Section RegularFileHashed.
Context `{SizeT} {FD : Type} `{FileDescOps FD}.
Variables (content : FD → list byte) (position : FD → nat)
  (valid : FD → Prop).
Hypothesis regular : RegularFile content position valid.
Hypothesis size_max_nonneg : 0 ≤ SIZE_MAX.

Lemma wrap_nonneg x : 0 ≤ wrap x.
Proof. unfold wrap. apply Z.mod_pos_bound. lia. Qed.

Lemma absorbed_update hasher buffer :
  SHA1_absorbed (SHA1_update hasher buffer) = SHA1_absorbed hasher ++ buffer.
Proof.
  unfold SHA1_absorbed, SHA1_update. simpl.
  rewrite concat_app. simpl. by rewrite app_nil_r.
Qed.

(** A run that returns has given the hasher [k] bytes of the file,
    starting at the cursor, and the cursor has moved over them (and, on
    the final read of a run ending on end-of-file, possibly further). *)
Lemma loop_regular_hashed fuel : ∀ fd hasher total limit r,
  valid fd → 0 ≤ limit →
  hashFileData_loop fuel fd hasher total limit = Some r →
  ∃ k : nat,
    SHA1_absorbed (hf_hasher r)
    = SHA1_absorbed hasher ++ take k (drop (position fd) (content fd)) ∧
    (position fd + k ≤ position (hf_fd r))%nat ∧
    content (hf_fd r) = content fd ∧
    valid (hf_fd r) ∧
    (end_on_empty_read valid → position (hf_fd r) = (position fd + k)%nat).
Proof.
  induction fuel as [|fuel IH]; intros fd hasher total limit r Hvalid Hlimit Hrun;
    [done|].
  pose proof (request_size_pos limit Hlimit) as Hsize.
  destruct (regular_read _ _ _ regular fd (request_size limit) Hvalid Hsize)
    as (buffer & fd' & Hread & Hvalid' & Hbuf & Hlen & Hcontent & Hposition
        & Hend & Hempty).
  simpl in Hrun. rewrite Hread in Hrun.
  assert (SHA1_absorbed (SHA1_update hasher buffer)
          = SHA1_absorbed hasher
              ++ take (length buffer) (drop (position fd) (content fd)))
    as Hone by (rewrite absorbed_update; congruence).
  assert (∀ limit',
            0 ≤ limit' →
            hashFileData_loop fuel fd' (SHA1_update hasher buffer)
              (wrap (total + Z.of_nat (length buffer))) limit' = Some r →
            ∃ k : nat,
              SHA1_absorbed (hf_hasher r)
              = SHA1_absorbed hasher
                  ++ take k (drop (position fd) (content fd)) ∧
              (position fd + k ≤ position (hf_fd r))%nat ∧
              content (hf_fd r) = content fd ∧
              valid (hf_fd r) ∧
              (end_on_empty_read valid →
               position (hf_fd r) = (position fd + k)%nat)) as Hnext.
  { intros limit' Hlimit' Hrun'.
    destruct (IH _ _ _ _ _ Hvalid' Hlimit' Hrun')
      as (k & Habs & Hpos & Hcont & Hval & Hlazy).
    exists (length buffer + k)%nat.
    rewrite Habs, Hone, Hcontent, Hposition, <- app_assoc.
    rewrite <- take_take_drop, drop_drop.
    split; [done|]. split; [lia|]. split; [congruence|]. split; [done|].
    intros Hl. rewrite (Hlazy Hl). lia. }
  destruct (fd_atEnd fd') eqn:Hat.
  { simplify_eq. simpl. exists 0%nat. rewrite take_0, app_nil_r.
    split; [done|]. split; [lia|]. split; [done|]. split; [done|].
    intros Hl. rewrite (Hl fd _ buffer fd' Hvalid Hsize Hread Hat) in Hposition.
    simpl in Hposition. lia. }
  destruct (limit =? 0); simpl in Hrun; [by apply (Hnext limit)|].
  destruct (wrap (limit - Z.of_nat (length buffer)) =? 0) eqn:Hw.
  - simplify_eq. simpl. exists (length buffer).
    split; [done|]. split; [lia|]. split; [done|]. split; [done|]. done.
  - apply (Hnext (wrap (limit - Z.of_nat (length buffer))));
      [apply wrap_nonneg|done].
Qed.

#[local] Abbreviation remaining := (remaining content position).
#[local] Abbreviation span := (span content position).

(** On a descriptor that raises the indicator only on an empty read the
    run hashes exactly what it counts: the next [span] bytes. *)
Lemma loop_regular_exact fuel fd hasher total limit :
  end_on_empty_read valid →
  valid fd →
  (position fd ≤ length (content fd))%nat →
  (length (content fd) - position fd < fuel)%nat →
  0 ≤ total → total + remaining fd ≤ SIZE_MAX →
  0 ≤ limit ≤ SIZE_MAX →
  ∃ r, hashFileData_loop fuel fd hasher total limit = Some r ∧
       hf_outcome r = Return (total + span fd limit) ∧
       Z.of_nat (position (hf_fd r)) = Z.of_nat (position fd) + span fd limit ∧
       content (hf_fd r) = content fd ∧
       valid (hf_fd r) ∧
       SHA1_absorbed (hf_hasher r)
       = SHA1_absorbed hasher
           ++ take (Z.to_nat (span fd limit))
                (drop (position fd) (content fd)).
Proof.
  intros Hlazy Hvalid Hpos Hfuel Htot Hmax Hlimit.
  destruct (loop_regular content position valid regular
              (length (content fd) - position fd) fuel fd hasher total limit
              Hvalid Hpos)
    as (r & Hrun & Hout & Hcur);
    [unfold remaining; lia|done..|].
  destruct (loop_regular_hashed fuel fd hasher total limit r Hvalid
              (proj1 Hlimit) Hrun)
    as (k & Habs & _ & Hcont & Hval & Hexact).
  specialize (Hexact Hlazy).
  exists r. repeat (split; [done|]).
  rewrite Habs. do 2 f_equal. lia.
Qed.
End RegularFileHashed.

Lemma file_regular_lazy : RegularFile f_content f_offset lazy_file.
Proof.
  constructor. intros fd n [Hvalid Hlazy] Hn.
  destruct (regular_read _ _ _ file_regular fd n Hvalid Hn)
    as (buffer & fd' & Hread & Hvalid' & Hrest).
  exists buffer, fd'. split; [done|]. split; [|done].
  split; [done|]. simpl in Hread. injection Hread as _ <-. done.
Qed.

Lemma file_end_on_empty_read : end_on_empty_read lazy_file.
Proof.
  intros fd n buffer fd' [Hvalid Hlazy] Hn Hread Hend.
  simpl in Hread. injection Hread as <- <-. simpl in Hend.
  rewrite Hlazy in Hend. apply orb_true_iff in Hend as [Hold|Hnow].
  - rewrite drop_ge by (by apply Hvalid). apply take_nil.
  - apply andb_true_iff in Hnow as [_ Hb]. by apply bool_decide_eq_true in Hb.
Qed.

(** X5.  On a regular file, whatever the end-of-file behaviour of the
    descriptor, what [hashFileData] gives the hasher is a run of the
    file's own bytes that starts at the cursor, in order and without
    gaps, and that does not reach beyond where the cursor is left. *)
Theorem hashFileData_hashes_file_bytes
    `{SizeT} {FD : Type} `{FileDescOps FD}
    (content : FD → list byte) (position : FD → nat) (valid : FD → Prop)
    (fuel : nat) (fd : FD) (hasher : SHA1) (limit : Z) (r : hashed FD) :
  RegularFile content position valid →
  valid fd →
  0 ≤ limit → 0 ≤ SIZE_MAX →
  hashFileData fuel fd hasher limit = Some r →
  ∃ k : nat,
    SHA1_absorbed (hf_hasher r)
    = SHA1_absorbed hasher ++ take k (drop (position fd) (content fd)) ∧
    (position fd + k ≤ position (hf_fd r))%nat.
Proof.
  intros Hreg Hvalid Hlimit Hmax Hrun.
  destruct (loop_regular_hashed content position valid Hreg Hmax fuel fd
              hasher 0 limit r Hvalid Hlimit Hrun) as (k & Habs & Hpos & _).
  by exists k.
Qed.

Lemma hashFileData_hashes_file_bytes_witness :
  ∃ k : nat,
    SHA1_absorbed (SHA1_update SHA1_new ["b"; "c"]%byte)
    = SHA1_absorbed SHA1_new ++ take k (drop 1 abc) ∧
    (1 + k ≤ 3)%nat.
Proof.
  apply (hashFileData_hashes_file_bytes f_content f_offset file_valid
           3 (File abc 1 false false) SHA1_new 0
           (Hashed (Return 2) (File abc 3 true false)
              (SHA1_update SHA1_new ["b"; "c"]%byte)) file_regular).
  - unfold file_valid. simpl. discriminate.
  - lia.
  - vm_compute. discriminate.
  - reflexivity.
Defined.

(** X6.  On a regular file behind a descriptor that raises the at-end
    indicator only on a read that delivered nothing, [hashFileData] from
    any position returns, with more fuel than bytes left, and hashes
    exactly the bytes it counts: the next [min(remaining, limit)] bytes
    of the file (all remaining bytes when the limit is 0). *)
Theorem hashFileData_hashes_what_it_counts
    `{SizeT} {FD : Type} `{FileDescOps FD}
    (content : FD → list byte) (position : FD → nat) (valid : FD → Prop)
    (fuel : nat) (fd : FD) (hasher : SHA1) (limit : Z) :
  RegularFile content position valid →
  end_on_empty_read valid →
  valid fd →
  (position fd ≤ length (content fd))%nat →
  (length (content fd) - position fd < fuel)%nat →
  remaining content position fd ≤ SIZE_MAX →
  0 ≤ limit ≤ SIZE_MAX →
  ∃ r, hashFileData fuel fd hasher limit = Some r ∧
       hf_outcome r = Return (span content position fd limit) ∧
       SHA1_absorbed (hf_hasher r)
       = SHA1_absorbed hasher
           ++ take (Z.to_nat (span content position fd limit))
                (drop (position fd) (content fd)).
Proof.
  intros Hreg Hlazy Hvalid Hpos Hfuel Hmax Hlimit.
  assert (0 ≤ SIZE_MAX) as Hsize by lia.
  destruct (loop_regular_exact content position valid Hreg Hsize
              fuel fd hasher 0 limit Hlazy Hvalid Hpos Hfuel)
    as (r & Hrun & Hout & _ & _ & _ & Habs); [lia..|].
  exists r. rewrite Z.add_0_l in Hout. done.
Qed.

Lemma hashFileData_hashes_what_it_counts_witness :
  ∃ r, hashFileData 3 (File abc 1 false false) SHA1_new 0 = Some r ∧
       hf_outcome r = Return 2 ∧
       SHA1_absorbed (hf_hasher r) = SHA1_absorbed SHA1_new ++ ["b"; "c"]%byte.
Proof.
  apply (hashFileData_hashes_what_it_counts f_content f_offset lazy_file
           3 (File abc 1 false false) SHA1_new 0
           file_regular_lazy file_end_on_empty_read).
  - split; [unfold file_valid; simpl; discriminate|reflexivity].
  - simpl. lia.
  - simpl. lia.
  - vm_compute. discriminate.
  - vm_compute. split; discriminate.
Defined.

(** X7.  [hashFileData(path, hasher)]: when the file cannot be opened
    the constructor's exception comes out, no read is made and the
    hasher is untouched; when it opens as a regular file at position 0
    (behind a descriptor that raises the indicator on the empty read),
    the whole content goes into the hasher and the length is returned. *)
Theorem hashFileData_path_whole_file
    `{SizeT} {FD : Type} `{FileDescOps FD}
    (content : FD → list byte) (position : FD → nat) (valid : FD → Prop)
    (open : list byte → Outcome FD)
    (fuel : nat) (path : list byte) (hasher : SHA1) :
  RegularFile content position valid →
  end_on_empty_read valid →
  (∀ e, open path = Throw e →
        hashFileData_path open fuel path hasher = Some (Throw e, None, hasher))
  ∧ (∀ fd, open path = Return fd →
       valid fd → position fd = 0%nat →
       Z.of_nat (length (content fd)) ≤ SIZE_MAX →
       (length (content fd) < fuel)%nat →
       ∃ fd' hasher',
         hashFileData_path open fuel path hasher
         = Some (Return (Z.of_nat (length (content fd))), Some fd', hasher') ∧
         SHA1_absorbed hasher' = SHA1_absorbed hasher ++ content fd ∧
         position fd' = length (content fd)).
Proof.
  intros Hreg Hlazy. split.
  - intros e Hopen. unfold hashFileData_path. by rewrite Hopen.
  - intros fd Hopen Hvalid Hpos Hlen Hfuel.
    assert (0 ≤ SIZE_MAX) as Hsize by lia.
    destruct (loop_regular_exact content position valid Hreg Hsize
                fuel fd hasher 0 0 Hlazy Hvalid)
      as (r & Hrun & Hout & Hcur & _ & _ & Habs);
      [unfold remaining; lia..|].
    unfold span, remaining in *. simpl in *. rewrite Hpos in *.
    rewrite Z.sub_0_r in *. rewrite Nat2Z.id, drop_0, firstn_all in Habs.
    exists (hf_fd r), (hf_hasher r).
    unfold hashFileData_path, hashFileData. rewrite Hopen, Hrun. simpl.
    rewrite Hout. split; [done|]. split; [done|]. lia.
Qed.

Lemma hashFileData_path_whole_file_witness :
  ∃ fd' hasher',
    hashFileData_path (λ _, Return file_abc) 4 [] SHA1_new
    = Some (Return 3, Some fd', hasher') ∧
    SHA1_absorbed hasher' = SHA1_absorbed SHA1_new ++ abc ∧
    f_offset fd' = 3%nat.
Proof.
  destruct (hashFileData_path_whole_file f_content f_offset lazy_file
              (λ _, Return file_abc) 4 [] SHA1_new
              file_regular_lazy file_end_on_empty_read) as [_ Hopened].
  apply (Hopened file_abc).
  - reflexivity.
  - split; [unfold file_valid; simpl; discriminate|reflexivity].
  - reflexivity.
  - vm_compute. discriminate.
  - simpl. lia.
Defined.

(** X8.  Calls compose.  On such a file, a call with limit [a > 0]
    followed by a call with limit [b] on the same descriptor and hasher
    counts the same bytes in all, leaves the cursor at the same place and
    gives the hasher the same bytes (so the same digest) as one call with
    limit [a + b], or with no limit when [b] is 0. *)
Theorem hashFileData_calls_compose
    `{SizeT} {FD : Type} `{FileDescOps FD}
    (content : FD → list byte) (position : FD → nat) (valid : FD → Prop)
    (fuel : nat) (fd : FD) (hasher : SHA1) (a b : Z) :
  RegularFile content position valid →
  end_on_empty_read valid →
  valid fd →
  (position fd ≤ length (content fd))%nat →
  (length (content fd) - position fd < fuel)%nat →
  remaining content position fd ≤ SIZE_MAX →
  0 < a → 0 ≤ b → a + b ≤ SIZE_MAX →
  ∃ r1 r2 r t1 t2,
    hashFileData fuel fd hasher a = Some r1 ∧
    hf_outcome r1 = Return t1 ∧
    hashFileData fuel (hf_fd r1) (hf_hasher r1) b = Some r2 ∧
    hf_outcome r2 = Return t2 ∧
    hashFileData fuel fd hasher (if b =? 0 then 0 else a + b) = Some r ∧
    hf_outcome r = Return (t1 + t2) ∧
    position (hf_fd r2) = position (hf_fd r) ∧
    SHA1_absorbed (hf_hasher r2) = SHA1_absorbed (hf_hasher r) ∧
    SHA1_finish (hf_hasher r2) = SHA1_finish (hf_hasher r).
Proof.
  intros Hreg Hlazy Hvalid Hpos Hfuel Hmax Ha Hb Hab.
  assert (0 ≤ SIZE_MAX) as Hsize by lia.
  destruct (loop_regular_exact content position valid Hreg Hsize
              fuel fd hasher 0 a Hlazy Hvalid Hpos Hfuel)
    as (r1 & Hrun1 & Hout1 & Hcur1 & Hcont1 & Hvalid1 & Habs1); [lia..|].
  assert (0 ≤ span content position fd a ≤ remaining content position fd)
    as Hspan1.
  { unfold span, remaining.
    destruct (Z.eqb_spec a 0); lia. }
  assert (remaining content position (hf_fd r1)
          = remaining content position fd - span content position fd a)
    as Hrem1 by (unfold remaining in *; rewrite Hcont1; lia).
  destruct (loop_regular_exact content position valid Hreg Hsize
              fuel (hf_fd r1) (hf_hasher r1) 0 b Hlazy Hvalid1)
    as (r2 & Hrun2 & Hout2 & Hcur2 & Hcont2 & Hvalid2 & Habs2);
    [rewrite ?Hcont1; unfold remaining in *; lia..|].
  destruct (loop_regular_exact content position valid Hreg Hsize
              fuel fd hasher 0 (if b =? 0 then 0 else a + b)
              Hlazy Hvalid Hpos Hfuel)
    as (r & Hrun & Hout & Hcur & Hcont & _ & Habs);
    [try (destruct (b =? 0)); lia..|].
  assert (span content position fd a
          + span content position (hf_fd r1) b
          = span content position fd (if b =? 0 then 0 else a + b)) as Hsum.
  { unfold span in *. rewrite Hrem1.
    destruct (Z.eqb_spec a 0) as [|_]; [lia|].
    destruct (Z.eqb_spec b 0) as [->|Hb0]; simpl.
    - lia.
    - destruct (Z.eqb_spec (a + b) 0); lia. }
  assert (0 ≤ span content position (hf_fd r1) b) as Hspan2.
  { unfold span. rewrite Hrem1. destruct (Z.eqb_spec b 0); lia. }
  assert (SHA1_absorbed (hf_hasher r2) = SHA1_absorbed (hf_hasher r)) as Hsame.
  { rewrite Habs2, Habs1, Habs, Hcont1, <- app_assoc. f_equal.
    replace (position (hf_fd r1))
      with (position fd + Z.to_nat (span content position fd a))%nat by lia.
    rewrite <- drop_drop, take_take_drop. f_equal. lia. }
  exists r1, r2, r, (span content position fd a),
    (span content position (hf_fd r1) b).
  rewrite Z.add_0_l in Hout1, Hout2, Hout.
  split; [done|]. split; [done|]. split; [done|]. split; [done|].
  split; [done|]. split; [by rewrite Hsum|]. split; [lia|].
  split; [done|]. unfold SHA1_finish. by rewrite Hsame.
Qed.

Lemma hashFileData_calls_compose_witness :
  ∃ r1 r2 r t1 t2,
    hashFileData 4 file_abc SHA1_new 2 = Some r1 ∧
    hf_outcome r1 = Return t1 ∧
    hashFileData 4 (hf_fd r1) (hf_hasher r1) 0 = Some r2 ∧
    hf_outcome r2 = Return t2 ∧
    hashFileData 4 file_abc SHA1_new 0 = Some r ∧
    hf_outcome r = Return (t1 + t2) ∧
    f_offset (hf_fd r2) = f_offset (hf_fd r) ∧
    SHA1_absorbed (hf_hasher r2) = SHA1_absorbed (hf_hasher r) ∧
    SHA1_finish (hf_hasher r2) = SHA1_finish (hf_hasher r).
Proof.
  apply (hashFileData_calls_compose f_content f_offset lazy_file
           4 file_abc SHA1_new 2 0 file_regular_lazy file_end_on_empty_read).
  - split; [unfold file_valid; simpl; discriminate|reflexivity].
  - simpl. lia.
  - simpl. lia.
  - vm_compute. discriminate.
  - lia.
  - lia.
  - vm_compute. discriminate.
Defined.

(** ** The reads hashFileData asks for *)

Section ReadRequests.
Context `{SizeT} {FD : Type} `{FileDescOps FD}.
Hypothesis size_max_nonneg : 0 ≤ SIZE_MAX.

#[local] Abbreviation logged_loop :=
  (@hashFileData_loop _ (FD * list Z) logged_ops).

(** Recording the sizes does not change the run. *)
Lemma logged_loop_erase fuel : ∀ fd log hasher total limit,
  (λ r, Hashed (hf_outcome r) (hf_fd r).1 (hf_hasher r))
    <$> logged_loop fuel (fd, log) hasher total limit
  = hashFileData_loop fuel fd hasher total limit.
Proof.
  induction fuel as [|fuel IH]; intros fd log hasher total limit; [done|].
  simpl.
  destruct (fd_read fd (request_size limit)) as [[buffer fd']| |]; [|done..].
  simpl. destruct (fd_atEnd fd'); [done|].
  destruct (limit =? 0); simpl; [apply IH|].
  destruct (wrap (limit - Z.of_nat (length buffer)) =? 0); [done|apply IH].
Qed.

Lemma request_size_range limit :
  0 ≤ limit → 0 < request_size limit ≤ sizeof_buffer.
Proof.
  intros. unfold request_size, sizeof_buffer.
  destruct (Z.eqb_spec limit 0); simpl; [lia|].
  destruct (Z.ltb_spec limit 4096); lia.
Qed.

(** Every request is for at least one byte and for no more than the
    buffer holds. *)
Lemma logged_loop_requests fuel : ∀ fd log hasher total limit r,
  0 ≤ limit →
  logged_loop fuel (fd, log) hasher total limit = Some r →
  ∃ requests, (hf_fd r).2 = log ++ requests ∧
              Forall (λ n, 0 < n ≤ sizeof_buffer) requests.
Proof.
  induction fuel as [|fuel IH]; intros fd log hasher total limit r Hlimit Hrun;
    [done|].
  simpl in Hrun.
  assert (∀ fd' h t limit',
            0 ≤ limit' →
            logged_loop fuel (fd', log ++ [request_size limit]) h t limit'
            = Some r →
            ∃ requests, (hf_fd r).2 = log ++ requests ∧
                        Forall (λ n, 0 < n ≤ sizeof_buffer) requests) as Hnext.
  { intros fd' h t limit' Hlimit' Hrun'.
    destruct (IH _ _ _ _ _ _ Hlimit' Hrun') as (requests & Hlog & Hall).
    exists (request_size limit :: requests). rewrite Hlog, <- app_assoc.
    split; [done|]. constructor; [by apply request_size_range|done]. }
  destruct (fd_read fd (request_size limit)) as [[buffer fd']| |];
    simpl in Hrun.
  - destruct (fd_atEnd fd').
    { simplify_eq. simpl. exists [request_size limit].
      split; [done|]. constructor; [by apply request_size_range|done]. }
    destruct (limit =? 0); simpl in Hrun; [by eapply Hnext|].
    destruct (wrap (limit - Z.of_nat (length buffer)) =? 0).
    + simplify_eq. simpl. exists [request_size limit].
      split; [done|]. constructor; [by apply request_size_range|done].
    + eapply Hnext; [|done]. unfold wrap. apply Z.mod_pos_bound. lia.
  - simplify_eq. exists []. simpl. by rewrite app_nil_r.
  - simplify_eq. exists []. simpl. by rewrite app_nil_r.
Qed.

(** With a non-zero limit, on a descriptor that delivers no more than
    it is asked for, no request exceeds what is left of the limit, so
    none exceeds the limit. *)
Lemma logged_loop_requests_limit fuel : ∀ fd log hasher total limit r L,
  bounded_reads →
  0 < limit ≤ L → L ≤ SIZE_MAX →
  logged_loop fuel (fd, log) hasher total limit = Some r →
  ∃ requests, (hf_fd r).2 = log ++ requests ∧ Forall (λ n, n ≤ L) requests.
Proof.
  induction fuel as [|fuel IH];
    intros fd log hasher total limit r L Hbound Hlimit HL Hrun; [done|].
  simpl in Hrun.
  assert (limit ≠ 0) as Hnz by lia.
  assert (0 ≤ limit) as Hnn by lia.
  pose proof (request_size_le_limit limit Hnz) as Hreq.
  destruct (fd_read fd (request_size limit)) as [[buffer fd']| |] eqn:Hread;
    simpl in Hrun.
  - pose proof (Hbound fd _ buffer fd' (request_size_pos limit Hnn) Hread)
      as Hgot.
    destruct (fd_atEnd fd').
    { simplify_eq. simpl. exists [request_size limit].
      split; [done|]. constructor; [lia|done]. }
    destruct (Z.eqb_spec limit 0) as [|_]; [lia|]. simpl in Hrun.
    rewrite (wrap_small (limit - _)) in Hrun by lia.
    destruct (Z.eqb_spec (limit - Z.of_nat (length buffer)) 0).
    + simplify_eq. simpl. exists [request_size limit].
      split; [done|]. constructor; [lia|done].
    + assert (0 < limit - Z.of_nat (length buffer) ≤ L) as Hleft by lia.
      destruct (IH _ _ _ _ _ _ L Hbound Hleft HL Hrun)
        as (requests & Hlog & Hall).
      exists (request_size limit :: requests). rewrite Hlog, <- app_assoc.
      split; [done|]. constructor; [lia|done].
  - simplify_eq. exists []. simpl. by rewrite app_nil_r.
  - simplify_eq. exists []. simpl. by rewrite app_nil_r.
Qed.
End ReadRequests.

(** X9.  Run on a descriptor that records the sizes of its reads (which
    leaves the run as it is), [hashFileData] asks every time for at least
    one byte and at most the 4096 the buffer holds; and with a non-zero
    limit [L], on a descriptor that delivers no more than it is asked
    for, no read asks for more than [L]. *)
Theorem hashFileData_read_requests
    `{SizeT} {FD : Type} `{FileDescOps FD}
    (fuel : nat) (fd : FD) (hasher : SHA1) (L : Z)
    (r : hashed (FD * list Z)) :
  0 ≤ L ≤ SIZE_MAX →
  @hashFileData _ (FD * list Z) logged_ops fuel (fd, []) hasher L = Some r →
  hashFileData fuel fd hasher L
  = Some (Hashed (hf_outcome r) (hf_fd r).1 (hf_hasher r)) ∧
  Forall (λ n, 0 < n ≤ 4096) (hf_fd r).2 ∧
  (bounded_reads → L ≠ 0 → Forall (λ n, n ≤ L) (hf_fd r).2).
Proof.
  intros HL Hrun. split; [|split].
  - unfold hashFileData in *.
    rewrite <- (logged_loop_erase fuel fd [] hasher 0 L), Hrun. done.
  - assert (0 ≤ SIZE_MAX) as Hsize by lia.
    destruct (logged_loop_requests Hsize fuel fd [] hasher 0 L r
                (proj1 HL) Hrun) as (requests & -> & Hall). done.
  - intros Hbound Hnz.
    destruct (logged_loop_requests_limit fuel fd [] hasher 0 L r L Hbound)
      as (requests & -> & Hall); [lia..|done|done].
Qed.

Lemma hashFileData_read_requests_witness :
  hashFileData 4 file_abc SHA1_new 2
  = Some (Hashed (Return 2) (File abc 2 false false)
            (SHA1_update SHA1_new ["a"; "b"]%byte)) ∧
  Forall (λ n, 0 < n ≤ 4096) [2] ∧
  (@bounded_reads file file_ops → 2 ≠ 0 → Forall (λ n, n ≤ 2) [2]).
Proof.
  apply (hashFileData_read_requests 4 file_abc SHA1_new 2
           (Hashed (Return 2) (File abc 2 false false, [2])
              (SHA1_update SHA1_new ["a"; "b"]%byte))).
  - vm_compute. split; discriminate.
  - reflexivity.
Defined.

(** ** certificateHasField: every run at a glance *)

Lemma certificateHasField_run cl cert oid :
  hasField_run cl cert oid (certificateHasField cl cert oid).
Proof.
  destruct (decide (cert = NULL)) as [Hnull|Hcert].
  { replace (certificateHasField cl cert oid)
      with (([], AssertionFailed) : CL bool); [by constructor|].
    unfold certificateHasField.
    by rewrite (bool_decide_eq_false_2 (cert ≠ NULL)) by (by intros []). }
  destruct (SecCertificateCopyFirstFieldValue cl cert oid) as [rc value]
    eqn:Hfirst.
  destruct (decide (rc = noErr)) as [->|Hrc].
  { rewrite (hasField_first_found cl cert oid Hcert value Hfirst).
    by constructor. }
  destruct (decide (rc = CSSMERR_CL_UNKNOWN_TAG cl)) as [->|Htag].
  2:{ rewrite (hasField_first_error cl cert oid Hcert rc value Hfirst Hrc Htag).
      by constructor. }
  rewrite (hasField_unknown_tag cl cert oid Hcert value Hfirst).
  destruct (SecCertificateCopyFieldValues cl cert
              (CSSMOID_X509V3CertificateExtensionCStruct cl))
    as [rc values] eqn:Hbag.
  destruct (decide (rc = noErr)) as [->|Hfail].
  - rewrite (hasField_bag_scanned cl cert oid values Hbag).
    by constructor.
  - rewrite (hasField_bag_failed cl cert oid rc values Hbag Hfail).
    by constructor.
Qed.

(** X10.  Fast path: a first-field value that was copied successfully
    (its entry in the log carries [noErr]: the query was for the
    certificate and OID passed in, and that is what the library
    answered) is handed to the library's
    [SecCertificateReleaseFirstFieldValue], with the same certificate
    and OID, as the very next and last call, whatever the value is (null
    included), and no other call is made; [true] is returned unless the
    library's release reports an error, which is thrown. *)
Theorem certificateHasField_releases_first_field
    (cl : CertLibrary) (cert : SecCertificateRef) (oid : CssmOid)
    (cert' : SecCertificateRef) (field : CssmOid) (value : FieldValue) :
  CopyFirstFieldValue cert' field noErr value
    ∈ calls (certificateHasField cl cert oid) →
  cert' = cert ∧ field = oid ∧
  SecCertificateCopyFirstFieldValue cl cert oid = (noErr, value) ∧
  calls (certificateHasField cl cert oid)
  = [CopyFirstFieldValue cert oid noErr value;
     ReleaseFirstFieldValue cert oid value
       (SecCertificateReleaseFirstFieldValue cl cert oid value)] ∧
  outcome (certificateHasField cl cert oid)
  = if bool_decide (SecCertificateReleaseFirstFieldValue cl cert oid value = noErr)
    then Return true
    else Throw (MacOSError (SecCertificateReleaseFirstFieldValue cl cert oid value)).
Proof.
  destruct (decide (cert = NULL)) as [->|Hcert].
  { cbn. intros Hin. by apply elem_of_nil in Hin. }
  destruct (SecCertificateCopyFirstFieldValue cl cert oid) as [rc value0]
    eqn:Hfirst.
  destruct (decide (rc = noErr)) as [->|Hrc].
  { rewrite (hasField_first_found cl cert oid Hcert value0 Hfirst).
    unfold calls, outcome. simpl. intros Hin.
    apply elem_of_cons in Hin as [Heq|Hin];
      [|by apply list_elem_of_singleton in Hin].
    injection Heq as -> -> ->. done. }
  destruct (decide (rc = CSSMERR_CL_UNKNOWN_TAG cl)) as [->|Htag].
  2:{ rewrite (hasField_first_error cl cert oid Hcert rc value0 Hfirst Hrc Htag).
      unfold calls. simpl. intros Hin.
      apply list_elem_of_singleton in Hin. injection Hin as _ _ Heq _.
      congruence. }
  rewrite (hasField_unknown_tag cl cert oid Hcert value0 Hfirst).
  pose proof (CSSMERR_CL_UNKNOWN_TAG_distinct cl) as Hdistinct.
  destruct (SecCertificateCopyFieldValues cl cert
              (CSSMOID_X509V3CertificateExtensionCStruct cl))
    as [rc values] eqn:Hbag.
  destruct (decide (rc = noErr)) as [->|Hfail].
  - rewrite (hasField_bag_scanned cl cert oid values Hbag).
    unfold calls. simpl. intros Hin.
    apply elem_of_cons in Hin as [Heq|Hin];
      [injection Heq as _ _ Heq _; congruence|].
    apply elem_of_cons in Hin as [?|Hin]; [done|].
    by apply list_elem_of_singleton in Hin.
  - rewrite (hasField_bag_failed cl cert oid rc values Hbag Hfail).
    unfold calls. simpl. intros Hin.
    apply elem_of_cons in Hin as [Heq|Hin];
      [injection Heq as _ _ Heq _; congruence|].
    by apply list_elem_of_singleton in Hin.
Qed.

Lemma certificateHasField_releases_first_field_witness :
  1 = 1 ∧ oid_keyUsage = oid_keyUsage ∧
  SecCertificateCopyFirstFieldValue stockCL 1 oid_keyUsage
  = (noErr, Some [x03; x02; x07; x80]) ∧
  calls (certificateHasField stockCL 1 oid_keyUsage)
  = [CopyFirstFieldValue 1 oid_keyUsage noErr (Some [x03; x02; x07; x80]);
     ReleaseFirstFieldValue 1 oid_keyUsage (Some [x03; x02; x07; x80]) noErr] ∧
  outcome (certificateHasField stockCL 1 oid_keyUsage) = Return true.
Proof.
  apply (certificateHasField_releases_first_field stockCL 1 oid_keyUsage
           1 oid_keyUsage (Some [x03; x02; x07; x80])).
  vm_compute. left.
Defined.

(** X11.  Nothing is released that was not borrowed: every release in
    the log comes directly after the successful copy of the same
    certificate, field and value, and is the last call; so nothing is
    released twice, and nothing after a failed query. *)
Theorem certificateHasField_releases_only_borrowed
    (cl : CertLibrary) (cert : SecCertificateRef) (oid : CssmOid) :
  (∀ cert' field value rc,
     ReleaseFirstFieldValue cert' field value rc
       ∈ calls (certificateHasField cl cert oid) →
     calls (certificateHasField cl cert oid)
     = [CopyFirstFieldValue cert' field noErr value;
        ReleaseFirstFieldValue cert' field value rc])
  ∧ (∀ cert' field values rc,
       ReleaseFieldValues cert' field values rc
         ∈ calls (certificateHasField cl cert oid) →
       ∃ before,
         calls (certificateHasField cl cert oid)
         = before ++ [CopyFieldValues cert' field noErr values;
                      ReleaseFieldValues cert' field values rc]).
Proof.
  destruct (certificateHasField_run cl cert oid)
    as [|value0 rc0| rc0 value0 ? Hrc|value0 rc0 values0|value0 values0 rc0];
    unfold calls; simpl; split; intros ? ? ? ? Hin.
  all: repeat (apply elem_of_cons in Hin as [Heq|Hin]; [try done|]).
  all: try (by apply elem_of_nil in Hin).
  - by injection Heq as -> -> -> ->.
  - injection Heq as -> -> -> ->. by eexists [_].
Qed.

Lemma certificateHasField_releases_only_borrowed_witness :
  ∃ before,
    calls (certificateHasField stockCL 1 oid_apple_6_1_2)
    = before ++ [CopyFieldValues 1 extension_cstruct_oid noErr
                   (Some (unrecognized known_oids leaf_exts));
                 ReleaseFieldValues 1 extension_cstruct_oid
                   (Some (unrecognized known_oids leaf_exts)) noErr].
Proof.
  apply (proj2 (certificateHasField_releases_only_borrowed stockCL 1
                  oid_apple_6_1_2)).
  vm_compute. right; right; left.
Defined.

(** X12.  Called with a certificate reference that is not null, the
    function asks the library only about that certificate and about two
    fields: the first-field calls name the OID asked for, the
    field-values calls the extension C-struct field; and it makes at
    least one call and never more than three. *)
Theorem certificateHasField_calls_are_about_cert
    (cl : CertLibrary) (cert : SecCertificateRef) (oid : CssmOid) :
  cert ≠ NULL →
  (1 ≤ length (calls (certificateHasField cl cert oid)) ≤ 3)%nat ∧
  ∀ c, c ∈ calls (certificateHasField cl cert oid) →
    call_cert c = cert ∧
    match c with
    | CopyFirstFieldValue _ field _ _
    | ReleaseFirstFieldValue _ field _ _ => field = oid
    | CopyFieldValues _ field _ _
    | ReleaseFieldValues _ field _ _ =>
        field = CSSMOID_X509V3CertificateExtensionCStruct cl
    end.
Proof.
  intros Hcert.
  destruct (certificateHasField_run cl cert oid); [done|..];
    unfold calls; simpl; (split; [lia|]); intros c Hin.
  all: repeat (apply elem_of_cons in Hin as [->|Hin]; [done|]).
  all: by apply elem_of_nil in Hin.
Qed.

Lemma certificateHasField_calls_are_about_cert_witness :
  (1 ≤ length (calls (certificateHasField stockCL 1%Z oid_apple_6_1_2)) ≤ 3)%nat ∧
  ∀ c, c ∈ calls (certificateHasField stockCL 1 oid_apple_6_1_2) →
    call_cert c = 1 ∧
    match c with
    | CopyFirstFieldValue _ field _ _
    | ReleaseFirstFieldValue _ field _ _ => field = oid_apple_6_1_2
    | CopyFieldValues _ field _ _
    | ReleaseFieldValues _ field _ _ =>
        field = CSSMOID_X509V3CertificateExtensionCStruct stockCL
    end.
Proof.
  apply (certificateHasField_calls_are_about_cert stockCL 1 oid_apple_6_1_2).
  discriminate.
Defined.

(** X13.  Whatever [certificateHasField] throws is a [MacOSError]
    carrying the non-zero status of the last call it made into the
    library; that call is never the query for the field values. *)
Theorem certificateHasField_throws_last_status
    (cl : CertLibrary) (cert : SecCertificateRef) (oid : CssmOid)
    (e : Exception) :
  outcome (certificateHasField cl cert oid) = Throw e →
  ∃ c, last (calls (certificateHasField cl cert oid)) = Some c ∧
       e = MacOSError (call_status c) ∧
       call_status c ≠ noErr ∧
       ∀ field rc values, c ≠ CopyFieldValues cert field rc values.
Proof.
  destruct (certificateHasField_run cl cert oid)
    as [|value rc| rc value ? Hrc|value rc values|value values rc];
    unfold calls, outcome; simpl; try done.
  - case_bool_decide as Hrel; [done|]. intros [= <-].
    by eexists.
  - intros [= <-]. by eexists.
  - case_bool_decide as Hrel; [done|]. intros [= <-].
    by eexists.
Qed.

Lemma certificateHasField_throws_last_status_witness :
  ∃ c, last (calls (certificateHasField stockCL 1 oid_subjectAltName)) = Some c ∧
       MacOSError no_field_values_code = MacOSError (call_status c) ∧
       call_status c ≠ noErr ∧
       ∀ field rc values, c ≠ CopyFieldValues 1 field rc values.
Proof.
  apply (certificateHasField_throws_last_status stockCL 1 oid_subjectAltName
           (MacOSError no_field_values_code)).
  reflexivity.
Defined.

(** X14.  The scan stops at the first match, but its answer depends
    only on which OIDs occur in the array: arrays with the same OIDs, in
    any order and with any repetitions, are scanned to the same result;
    and scanning two arrays laid end to end finds what either holds. *)
Theorem scanFieldValues_depends_on_oids_only
    (oid : CssmOid) (p q : list CSSM_X509_EXTENSION) :
  (∀ o, o ∈ extnId <$> p ↔ o ∈ extnId <$> q) →
  scanFieldValues oid p = scanFieldValues oid q ∧
  found_in oid (Some p) = found_in oid (Some q) ∧
  scanFieldValues oid (p ++ q) = scanFieldValues oid p || scanFieldValues oid q.
Proof.
  assert (∀ l, scanFieldValues oid l = true ↔ oid ∈ extnId <$> l) as Hscan.
  { intros l. rewrite scanFieldValues_carries, list_elem_of_fmap.
    unfold carries. split; intros (ext & ? & ?); by exists ext. }
  intros Hsame.
  assert (scanFieldValues oid p = scanFieldValues oid q) as Heq.
  { apply eq_true_iff_eq. by rewrite !Hscan. }
  split; [exact Heq|]. split; [exact Heq|].
  apply eq_true_iff_eq.
  rewrite orb_true_iff, !Hscan, fmap_app, elem_of_app. done.
Qed.

Lemma scanFieldValues_depends_on_oids_only_witness :
  scanFieldValues oid_apple_6_1_2 leaf_exts
  = scanFieldValues oid_apple_6_1_2 (rev leaf_exts ++ leaf_exts) ∧
  found_in oid_apple_6_1_2 (Some leaf_exts)
  = found_in oid_apple_6_1_2 (Some (rev leaf_exts ++ leaf_exts)) ∧
  scanFieldValues oid_apple_6_1_2 (leaf_exts ++ (rev leaf_exts ++ leaf_exts))
  = scanFieldValues oid_apple_6_1_2 leaf_exts
    || scanFieldValues oid_apple_6_1_2 (rev leaf_exts ++ leaf_exts).
Proof.
  apply (scanFieldValues_depends_on_oids_only oid_apple_6_1_2 leaf_exts
           (rev leaf_exts ++ leaf_exts)).
  intros o. vm_compute rev. rewrite fmap_app, elem_of_app. simpl.
  rewrite !elem_of_cons. tauto.
Defined.

(** X16.  A file hashed with a fresh hasher and then finished has the
    digest [hashOfCertificate] gives for the file's bytes: on a regular
    file read from position 0 with no limit (descriptor raising the
    indicator on the empty read), the two utilities agree. *)
Theorem hashFileData_then_finish_is_hashOfCertificate
    `{SizeT} {FD : Type} `{FileDescOps FD}
    (content : FD → list byte) (position : FD → nat) (valid : FD → Prop)
    (fuel : nat) (fd : FD) :
  RegularFile content position valid →
  end_on_empty_read valid →
  valid fd → position fd = 0%nat →
  Z.of_nat (length (content fd)) ≤ SIZE_MAX →
  (length (content fd) < fuel)%nat →
  ∃ r, hashFileData fuel fd SHA1_new 0 = Some r ∧
       hf_outcome r = Return (Z.of_nat (length (content fd))) ∧
       SHA1_finish (hf_hasher r) = hashOfCertificate (content fd).
Proof.
  intros Hreg Hlazy Hvalid Hpos Hlen Hfuel.
  assert (0 ≤ SIZE_MAX) as Hsize by lia.
  destruct (loop_regular_exact content position valid Hreg Hsize
              fuel fd SHA1_new 0 0 Hlazy Hvalid)
    as (r & Hrun & Hout & _ & _ & _ & Habs);
    [unfold remaining; lia..|].
  unfold span, remaining in *. simpl in *. rewrite Hpos in *.
  rewrite Z.sub_0_r in *. rewrite Nat2Z.id, drop_0, firstn_all in Habs.
  exists r. split; [done|]. split; [done|].
  unfold SHA1_finish, hashOfCertificate, SHA1_finish.
  rewrite Habs. unfold SHA1_absorbed, SHA1_update. simpl.
  by rewrite app_nil_r.
Qed.

Lemma hashFileData_then_finish_is_hashOfCertificate_witness :
  ∃ r, hashFileData 4 file_abc SHA1_new 0 = Some r ∧
       hf_outcome r = Return 3 ∧
       SHA1_finish (hf_hasher r) = hashOfCertificate abc.
Proof.
  apply (hashFileData_then_finish_is_hashOfCertificate f_content f_offset
           lazy_file 4 file_abc file_regular_lazy file_end_on_empty_read).
  - split; [unfold file_valid; simpl; discriminate|reflexivity].
  - reflexivity.
  - vm_compute. discriminate.
  - simpl. lia.
Defined.

(** ** Copyfile: what get does to the state *)

(** X17.  For any file-copy facility, [Copyfile::get(flag, value)] does
    to the state exactly what [Copyfile::set(flag, value)] does, throws
    exactly when it would, and hands the memory behind [value] back as
    it was.  So where the facility gives back what was last set, a [get]
    that succeeds has replaced whatever was recorded under [flag] with
    the previous content of the caller's buffer. *)
Theorem Copyfile_get_overwrites_binding `{CopyfileLib State}
    (mState : State) (flag : Z) (value : Value) :
  (Copyfile_get mState flag value).1.1 = (Copyfile_set mState flag value).1 ∧
  (Copyfile_get mState flag value).1.2 = value ∧
  (Copyfile_get mState flag value).2 = (Copyfile_set mState flag value).2 ∧
  ((∀ s k v out, 0 ≤ (copyfile_state_set s k v).1.1 →
      (copyfile_state_get (copyfile_state_set s k v).2 k out).2 = v) →
   (Copyfile_get mState flag value).2 = Return tt →
   ∀ out,
     (copyfile_state_get (Copyfile_get mState flag value).1.1 flag out).2
     = value).
Proof.
  unfold Copyfile_get, Copyfile_set.
  destruct (copyfile_state_set mState flag value) as [[rc errno] s'] eqn:Hset.
  simpl. split; [done|]. split; [done|]. split; [done|].
  intros Hlaw Hok out.
  specialize (Hlaw mState flag value out). rewrite Hset in Hlaw. simpl in Hlaw.
  apply Hlaw. destruct (Z.ltb_spec rc 0); [done|lia].
Qed.

Lemma Copyfile_get_overwrites_binding_witness :
  (copyfile_state_get
     (Copyfile_get ({[COPYFILE_STATE_SRC_FD := int_7]} : gmap Z Value)
        COPYFILE_STATE_SRC_FD int_0).1.1
     COPYFILE_STATE_SRC_FD int_7).2
  = int_0.
Proof.
  destruct (Copyfile_get_overwrites_binding
              ({[COPYFILE_STATE_SRC_FD := int_7]} : gmap Z Value)
              COPYFILE_STATE_SRC_FD int_0) as (_ & _ & _ & Hlost).
  apply Hlost.
  - intros s k v out. cbn. destruct (copyfile_key k) eqn:Hkey; cbn.
    + intros _. rewrite ?Hkey. cbn. by rewrite lookup_insert_eq.
    + intros Hneg. lia.
  - reflexivity.
Defined.

(** ** hashFileData: the total is a size_t *)

Section RegularFileWrap.
Context `{SizeT} {FD : Type} `{FileDescOps FD}.
Variables (content : FD → list byte) (position : FD → nat)
  (valid : FD → Prop).
Hypothesis regular : RegularFile content position valid.

#[local] Abbreviation remaining := (remaining content position).

(** Without a limit nothing bounds the count: the loop reads to the end
    of the file and the total is what is left, reduced modulo
    [SIZE_MAX + 1]. *)
Lemma loop_regular_no_limit n : ∀ fuel fd hasher total,
  valid fd →
  (position fd ≤ length (content fd))%nat →
  remaining fd ≤ Z.of_nat n →
  (n < fuel)%nat →
  ∃ r, hashFileData_loop fuel fd hasher total 0 = Some r ∧
       hf_outcome r = Return (wrap (total + remaining fd)) ∧
       position (hf_fd r) = length (content fd).
Proof.
  induction n as [|n IH];
    intros [|fuel] fd hasher total Hvalid Hpos Hrem Hfuel; try lia.
  all: destruct (regular_read _ _ _ regular fd (request_size 0) Hvalid
                   (request_size_pos 0 ltac:(done)))
    as (buffer & fd' & Hread & Hvalid' & Hbuf & Hlen & Hcontent & Hposition
        & Hend & Hempty).
  all: pose proof (read_within content position fd buffer Hbuf Hpos)
    as Hwithin.
  all: assert (remaining fd' = remaining fd - Z.of_nat (length buffer)) as Hrem'
    by (unfold remaining; rewrite Hcontent, Hposition; lia).
  all: destruct (fd_atEnd fd') eqn:Hat.
  all: try (
    rewrite (loop_at_end _ _ _ _ _ _ _ Hread Hat);
    eexists; split; [reflexivity|]; simpl;
    specialize (Hend eq_refl);
    assert (Z.of_nat (length buffer) = remaining fd) as Hall
      by (unfold remaining in *; lia);
    rewrite Hall, Hposition; split; [done|];
    unfold remaining in *; lia).
  - assert (buffer = []) as -> by (apply length_zero_iff_nil; lia).
    specialize (Hempty eq_refl). congruence.
  - assert (position fd' ≤ length (content fd'))%nat as Hpos'
      by (rewrite Hcontent, Hposition;
          unfold remaining in Hwithin; lia).
    assert (buffer ≠ []) as Hsome
      by (intros ->; specialize (Hempty eq_refl); congruence).
    assert (0 < Z.of_nat (length buffer)) as Hgot
      by (destruct buffer; [done|simpl; lia]).
    rewrite (loop_continue _ _ _ _ _ _ _ Hread Hat) by done. simpl.
    destruct (IH fuel fd' (SHA1_update hasher buffer)
                (wrap (total + Z.of_nat (length buffer))) Hvalid' Hpos')
      as (r & Hrun & Hout & Hcur); [lia..|].
    exists r. split; [done|]. split; [|congruence].
    rewrite Hout, wrap_add_l, Hrem'. do 2 f_equal. lia.
Qed.
End RegularFileWrap.

(** X18.  Without a limit the count is not bounded by anything but its
    type: on a regular file read from position 0, [hashFileData] reads to
    the end, whatever the length, and returns the length modulo
    [SIZE_MAX + 1] (the length itself when it fits a [size_t]). *)
Theorem hashFileData_total_is_modular
    `{SizeT} {FD : Type} `{FileDescOps FD}
    (content : FD → list byte) (position : FD → nat) (valid : FD → Prop)
    (fuel : nat) (fd : FD) (hasher : SHA1) :
  RegularFile content position valid →
  valid fd → position fd = 0%nat →
  (length (content fd) < fuel)%nat →
  ∃ r, hashFileData fuel fd hasher 0 = Some r ∧
       hf_outcome r
       = Return (Z.of_nat (length (content fd)) mod (SIZE_MAX + 1)) ∧
       position (hf_fd r) = length (content fd).
Proof.
  intros Hreg Hvalid Hpos Hfuel.
  destruct (loop_regular_no_limit content position valid Hreg
              (length (content fd)) fuel fd hasher 0 Hvalid)
    as (r & Hrun & Hout & Hcur); [unfold remaining; lia..|].
  exists r. split; [done|]. split; [|done].
  rewrite Hout. unfold wrap, remaining. rewrite Hpos. do 2 f_equal. lia.
Qed.

Lemma hashFileData_total_is_modular_witness :
  ∃ r, hashFileData 4 eager_abc SHA1_new 0 = Some r ∧
       hf_outcome r = Return (3 mod (SIZE_MAX + 1)) ∧
       f_offset (hf_fd r) = 3%nat.
Proof.
  apply (hashFileData_total_is_modular f_content f_offset file_valid
           4 eager_abc SHA1_new file_regular).
  - unfold file_valid. simpl. discriminate.
  - reflexivity.
  - simpl. lia.
Defined.
